(** * img2block: quadrant best-fit rendering of an image as block characters

    A shallow embedding of [img2block.py] and the properties of its
    rendering pipeline.

    Numeric models.  The script computes with Python floats (binary64) and
    with numpy [float32] arrays (binary32).  Its arithmetic is embedded
    twice.

    - At top level a float is an exact rational, or one of the three IEEE
      special values the code can meet ([inf], [-inf], [nan]): arithmetic on
      finite values is exact, and the special values follow IEEE 754 as
      numpy implements them.  This idealised reading carries the properties
      that hold whatever the rounding: the failure paths, the palette, the
      membership of the result in the palette, ranges and order.
    - In [Module IEEE] every operation is the exact operation followed by
      the rounding of its format: to nearest, ties to the even mantissa,
      with gradual underflow and overflow to the infinities.  Python scalars
      are binary64, array elements binary32, as in the script.  This
      reading carries the properties that depend on the values computed:
      the column count, the cell boundaries, the distances the matcher
      compares, the tones.  The sign of zero is not modelled; no operation
      of the script depends on it.

    Python integers are [Z].

    Text model.  A Python [str] is a list of characters, and a character is
    written as the Rocq string that holds its UTF-8 encoding, so that
    [length] counts code points as Python's [len] does. *)

From Stdlib Require Import ZArith QArith Qround Qpower Qabs Ascii String List Bool Lia Lqa.
From Stdlib Require Qcanon.
Import ListNotations.

Set Implicit Arguments.

(* ================================================================== *)
(** ** Floats *)

Module NP.

Inductive float : Type :=
| Fin (q : Q)
| PInf
| NInf
| NaN.

Definition Qltb (a b : Q) : bool := negb (Qle_bool b a).

Definition fopp (a : float) : float :=
  match a with
  | Fin q => Fin (- q)
  | PInf => NInf
  | NInf => PInf
  | NaN => NaN
  end.

Definition fadd (a b : float) : float :=
  match a, b with
  | NaN, _ | _, NaN => NaN
  | Fin x, Fin y => Fin (x + y)
  | PInf, NInf | NInf, PInf => NaN
  | PInf, _ | _, PInf => PInf
  | NInf, _ | _, NInf => NInf
  end.

Definition fsub (a b : float) : float := fadd a (fopp b).

(** An infinity scaled by a finite factor [q]. *)
Definition scale_inf (positive : bool) (q : Q) : float :=
  match q ?= 0 with
  | Eq => NaN
  | Gt => if positive then PInf else NInf
  | Lt => if positive then NInf else PInf
  end.

Definition fmul (a b : float) : float :=
  match a, b with
  | NaN, _ | _, NaN => NaN
  | Fin x, Fin y => Fin (x * y)
  | PInf, Fin q | Fin q, PInf => scale_inf true q
  | NInf, Fin q | Fin q, NInf => scale_inf false q
  | PInf, PInf | NInf, NInf => PInf
  | PInf, NInf | NInf, PInf => NInf
  end.

(** numpy's true division: a zero divisor gives [nan] or an infinity (with a
    warning), never an exception. *)
Definition fdiv (a b : float) : float :=
  match a, b with
  | NaN, _ | _, NaN => NaN
  | Fin x, Fin y =>
      match y ?= 0 with
      | Eq => match x ?= 0 with Eq => NaN | Gt => PInf | Lt => NInf end
      | _ => Fin (x / y)
      end
  | Fin _, _ => Fin 0
  | PInf, Fin y => if Qltb y 0 then NInf else PInf
  | NInf, Fin y => if Qltb y 0 then PInf else NInf
  | _, _ => NaN
  end.

(** [a < b]; every comparison with [nan] is false. *)
Definition fltb (a b : float) : bool :=
  match a, b with
  | NaN, _ | _, NaN => false
  | Fin x, Fin y => Qltb x y
  | NInf, NInf => false
  | NInf, _ => true
  | _, PInf => match a with PInf => false | _ => true end
  | _, _ => false
  end.

(** [a != b]. *)
Definition fneb (a b : float) : bool :=
  match a, b with
  | Fin x, Fin y => negb (Qeq_bool x y)
  | PInf, PInf | NInf, NInf => false
  | _, _ => true
  end.

(** [np.maximum] and [np.minimum]: a [nan] operand wins. *)
Definition maximum (a b : float) : float :=
  match a, b with
  | NaN, _ | _, NaN => NaN
  | _, _ => if fltb a b then b else a
  end.

Definition minimum (a b : float) : float :=
  match a, b with
  | NaN, _ | _, NaN => NaN
  | _, _ => if fltb b a then b else a
  end.

(** [np.clip(a, lo, hi)] is [minimum(maximum(a, lo), hi)]. *)
Definition clip (a lo hi : float) : float := minimum (maximum a lo) hi.

(** A two-dimensional array, row-major. *)
Definition ndarray : Type := list (list float).

Definition map2d {A B : Type} (f : A -> B) (a : list (list A)) : list (list B) :=
  map (map f) a.

(** Elementwise binary operation on two arrays of one shape. *)
Definition zip2d {A B C : Type} (f : A -> B -> C)
  (a : list (list A)) (b : list (list B)) : list (list C) :=
  map (fun rows => map (fun p => f (fst p) (snd p)) (combine (fst rows) (snd rows)))
      (combine a b).

(** Python's slice bounds: a negative index counts from the end, and both
    ends are clamped to the sequence. *)
Definition slice_index (n i : Z) : Z :=
  if (i <? 0)%Z then Z.max 0 (i + n) else Z.min i n.

(** [l[start:stop]] *)
Definition slice {A : Type} (l : list A) (start stop : Z) : list A :=
  let n := Z.of_nat (List.length l) in
  let s := slice_index n start in
  let e := slice_index n stop in
  firstn (Z.to_nat (e - s)) (skipn (Z.to_nat s) l).

(** [a[r0:r1, c0:c1]] *)
Definition slice2d {A : Type} (a : list (list A)) (r0 r1 c0 c1 : Z) : list (list A) :=
  map (fun row => slice row c0 c1) (slice a r0 r1).

Definition fsum (l : list float) : float := fold_left fadd l (Fin 0).

(** [a.mean()]: the sum of all elements over their number; on an empty
    array this is [0/0], that is [nan]. *)
Definition mean (a : ndarray) : float :=
  let flat := concat a in
  fdiv (fsum flat) (Fin (inject_Z (Z.of_nat (List.length flat)))).

End NP.

Import NP.

(* ================================================================== *)
(** ** Python scalars, exceptions and strings *)

(** An exception, by the name of its class. *)
Definition exn : Type := string.

Inductive result (A : Type) : Type :=
| Ok (a : A)
| Raise (e : exn).

Arguments Ok {A} a.
Arguments Raise {A} e.

Definition bind {A B : Type} (m : result A) (k : A -> result B) : result B :=
  match m with
  | Ok a => k a
  | Raise e => Raise e
  end.

Notation "x <- m ;; k" := (bind m (fun x => k))
  (at level 61, m at next level, right associativity).

(** [a / b] on Python integers. *)
Definition truediv (a b : Z) : result Q :=
  if (b =? 0)%Z then Raise "ZeroDivisionError"%string
  else Ok (inject_Z a / inject_Z b).

(** [int(q)] on a finite float: truncation toward zero. *)
Definition int (q : Q) : Z := Z.quot (Qnum q) (Z.pos (Qden q)).

(** [range(n)] *)
Definition range (n : Z) : list Z := map Z.of_nat (seq 0 (Z.to_nat n)).

Definition char : Type := string.
Definition str : Type := list char.

(** The line break ["\n"]. *)
Definition newline : char := String (ascii_of_nat 10) EmptyString.

(** [sep.join(parts)] *)
Fixpoint join (sep : str) (parts : list str) : str :=
  match parts with
  | [] => []
  | [p] => p
  | p :: rest => p ++ sep ++ join sep rest
  end.

(* ================================================================== *)
(** ** The palette *)

(** A 2x2 matrix [[[tl, tr], [bl, br]]]. *)
Record quad (A : Type) : Type := Quad { tl : A; tr : A; bl : A; br : A }.

Definition quad_map {A B : Type} (f : A -> B) (p : quad A) : quad B :=
  Quad (f (tl p)) (f (tr p)) (f (bl p)) (f (br p)).

Definition quad_map2 {A B C : Type} (f : A -> B -> C) (p : quad A) (q : quad B) : quad C :=
  Quad (f (tl p) (tl q)) (f (tr p) (tr q)) (f (bl p) (bl q)) (f (br p) (br q)).

Open Scope string_scope.
Open Scope list_scope.
Open Scope Q_scope.

Definition QUADRANT_PATTERNS : list (char * quad Q) :=
  [ (" ", Quad 0 0 0 0);
    ("▗", Quad 0 0 0 1);
    ("▖", Quad 0 0 1 0);
    ("▄", Quad 0 0 1 1);
    ("▝", Quad 0 1 0 0);
    ("▐", Quad 0 1 0 1);
    ("▞", Quad 0 1 1 0);
    ("▟", Quad 0 1 1 1);
    ("▘", Quad 1 0 0 0);
    ("▚", Quad 1 0 0 1);
    ("▌", Quad 1 0 1 0);
    ("▙", Quad 1 0 1 1);
    ("▀", Quad 1 1 0 0);
    ("▜", Quad 1 1 0 1);
    ("▛", Quad 1 1 1 0);
    ("█", Quad 1 1 1 1) ].

Definition SHADE_PATTERNS : list (char * quad Q) :=
  [ ("░", Quad 0.25 0.25 0.25 0.25);
    ("▒", Quad 0.5 0.5 0.5 0.5);
    ("▓", Quad 0.75 0.75 0.75 0.75) ].

Definition ALL_PATTERNS : list (char * quad Q) :=
  QUADRANT_PATTERNS ++ SHADE_PATTERNS.

(** [np.array(pattern, dtype=np.float32)] *)
Definition np_array (pattern : quad Q) : quad float := quad_map Fin pattern.

Definition PATTERNS : list (char * quad float) :=
  map (fun cp => (fst cp, np_array (snd cp))) ALL_PATTERNS.

(* ================================================================== *)
(** ** Tone adjustment and pattern matching *)

(** One element of [np.clip((brightness - 0.5) * strength + 0.5, 0, 1)]. *)
Definition boost_contrast_elt (strength : float) (b : float) : float :=
  clip (fadd (fmul (fsub b (Fin 0.5)) strength) (Fin 0.5)) (Fin 0) (Fin 1).

Definition boost_contrast (brightness : ndarray) (strength : float) : ndarray :=
  map2d (boost_contrast_elt strength) brightness.

(** [np.sum] of a 2x2 array. *)
Definition quad_sum (p : quad float) : float :=
  fsum [tl p; tr p; bl p; br p].

(** [np.sum((quad - pattern) ** 2)] *)
Definition sq_dist (q pattern : quad float) : float :=
  quad_sum (quad_map (fun d => fmul d d) (quad_map2 fsub q pattern)).

(** One turn of the loop of [best_fit_quadrant], on the pair
    [(min_dist, best_char)]. *)
Definition best_fit_step (q : quad float) (st : float * char)
  (entry : char * quad float) : float * char :=
  let dist := sq_dist q (snd entry) in
  if fltb dist (fst st) then (dist, fst entry) else st.

Definition best_fit_quadrant (q : quad float) : char :=
  snd (fold_left (best_fit_step q) PATTERNS (PInf, " ")).

(* ================================================================== *)
(** ** Cell sampling *)

(** The parameter [threshold] and the shape [h, w] of the source are read
    nowhere in its body.  [cell_w] and [cell_h] are finite floats. *)
Definition sample_cell (img_array : ndarray) (x y : Z) (cell_w cell_h : Q)
  : quad float :=
  let x_start := int (inject_Z x * cell_w) in
  let x_mid := int ((inject_Z x + 0.5) * cell_w) in
  let x_end := int ((inject_Z x + 1) * cell_w) in
  let y_start := int (inject_Z y * cell_h) in
  let y_mid := int ((inject_Z y + 0.5) * cell_h) in
  let y_end := int ((inject_Z y + 1) * cell_h) in
  let tl := mean (slice2d img_array y_start y_mid x_start x_mid) in
  let tr := mean (slice2d img_array y_start y_mid x_mid x_end) in
  let bl := mean (slice2d img_array y_mid y_end x_start x_mid) in
  let br := mean (slice2d img_array y_mid y_end x_mid x_end) in
  Quad tl tr bl br.

(* ================================================================== *)
(** ** The pipeline *)

(** An opened image, already in mode LA: its size, and what
    [img.resize((w, h), LANCZOS)] followed by [np.array] gives, as rows of
    (gray, alpha) bytes, or the exception that Pillow raises. *)
Record Image : Type := {
  width : Z;
  height : Z;
  resize : Z * Z -> result (list (list (Z * Z)))
}.

Definition byte_to_unit (b : Z) : float := fdiv (Fin (inject_Z b)) (Fin 255).

(** Lines 114-115: the brightness shift of the gray channel, skipped when
    the shift is zero. *)
Definition brightness_shift (gray_arr : ndarray) (brightness : float) : ndarray :=
  if fneb brightness (Fin 0)
  then map2d (fun g => clip (fadd g brightness) (Fin 0) (Fin 1)) gray_arr
  else gray_arr.

(** Line 118: [gray_arr * alpha_arr]. *)
Definition composite (gray_arr alpha_arr : ndarray) : ndarray :=
  zip2d fmul gray_arr alpha_arr.

(** The brightness field of lines 109-121: normalise, shift the gray
    channel, multiply by alpha, boost the contrast. *)
Definition brightness_field (la : list (list (Z * Z))) (contrast brightness : float)
  : ndarray :=
  let gray_arr := map2d (fun p => byte_to_unit (fst p)) la in
  let alpha_arr := map2d (fun p => byte_to_unit (snd p)) la in
  let gray_arr := brightness_shift gray_arr brightness in
  let brightness_arr := composite gray_arr alpha_arr in
  boost_contrast brightness_arr contrast.

Definition image_to_blocks (img : Image) (lines : Z) (contrast brightness : float)
  : result str :=
  aspect <- truediv (width img) (height img) ;;
  let cols := int (inject_Z lines * aspect * 2) in
  let target_w := (cols * 2)%Z in
  let target_h := (lines * 2)%Z in
  la <- resize img (target_w, target_h) ;;
  let brightness_arr := brightness_field la contrast brightness in
  cell_h <- truediv target_h lines ;;
  cell_w <- truediv target_w cols ;;
  let result :=
    map (fun y =>
           map (fun x => best_fit_quadrant (sample_cell brightness_arr x y cell_w cell_h))
               (range cols))
        (range lines) in
  Ok (join [newline] result).

(* ================================================================== *)
(** ** Concrete images *)

(** An image whose resized buffer holds [f x y] at column [x] of row [y].
    As Pillow does, the resize refuses a target without pixels. *)
Definition synthetic_image (w h : Z) (f : Z -> Z -> Z * Z) : Image :=
  {| width := w;
     height := h;
     resize := fun size =>
       if ((fst size <? 1) || (snd size <? 1))%Z
       then Raise "ValueError"
       else Ok (map (fun y => map (fun x => f x y) (range (fst size)))
                    (range (snd size))) |}.

(** An image of one gray level and one alpha level. *)
Definition solid_image (w h gray alpha : Z) : Image :=
  synthetic_image w h (fun _ _ => (gray, alpha)).

(* ================================================================== *)
(** ** Vocabulary of the specification *)

(** The pixel boundaries of a cell on one axis, as [sample_cell] computes
    them from the index of the cell and its size in pixels. *)
Definition x_start (x : Z) (cell_w : Q) : Z := int (inject_Z x * cell_w).
Definition x_mid (x : Z) (cell_w : Q) : Z := int ((inject_Z x + 0.5) * cell_w).
Definition x_end (x : Z) (cell_w : Q) : Z := int ((inject_Z x + 1) * cell_w).
Definition y_start (y : Z) (cell_h : Q) : Z := int (inject_Z y * cell_h).
Definition y_mid (y : Z) (cell_h : Q) : Z := int ((inject_Z y + 0.5) * cell_h).
Definition y_end (y : Z) (cell_h : Q) : Z := int ((inject_Z y + 1) * cell_h).

(** The sixteen 2x2 matrices over {0, 1}. *)
Definition is_binary (p : quad Q) : Prop :=
  (tl p = 0 \/ tl p = 1) /\ (tr p = 0 \/ tr p = 1) /\
  (bl p = 0 \/ bl p = 1) /\ (br p = 0 \/ br p = 1).

(** The pattern with one value in its four quadrants. *)
Definition uniform (v : Q) : quad Q := Quad v v v v.

(** The four values of a pattern lie in [0, 1]. *)
Definition in_unit_interval (p : quad Q) : Prop :=
  (0 <= tl p <= 1) /\ (0 <= tr p <= 1) /\ (0 <= bl p <= 1) /\ (0 <= br p <= 1).

(** No string occurs twice in the list. *)
Fixpoint distinctb (l : list string) : bool :=
  match l with
  | [] => true
  | c :: rest => negb (existsb (String.eqb c) rest) && distinctb rest
  end.

(** The squared Euclidean distance of the specification: the sum over the
    four quadrant positions of the squared differences. *)
Definition sq_distance (s p : quad Q) : Q :=
  (tl s - tl p) ^ 2 + (tr s - tr p) ^ 2 + (bl s - bl p) ^ 2 + (br s - br p) ^ 2.

(** Entry [i] of [l], of glyph [g] and pattern [p], is the first entry of
    [l] whose distance to the sample [s] is least. *)
Definition first_minimum (s : quad Q) (l : list (char * quad Q)) (i : nat)
  (g : char) (p : quad Q) : Prop :=
  nth_error l i = Some (g, p) /\
  forall j g' p', nth_error l j = Some (g', p') ->
    sq_distance s p <= sq_distance s p' /\
    ((j < i)%nat -> sq_distance s p < sq_distance s p').

(** Line 39, on any list of entries. *)
Definition to_arrays (l : list (char * quad Q)) : list (char * quad float) :=
  map (fun cp => (fst cp, np_array (snd cp))) l.



(** The elements of a sequence with their positions, counted from [k]. *)
Fixpoint enumerate_from {A : Type} (k : Z) (l : list A) : list (Z * A) :=
  match l with
  | [] => []
  | a :: rest => (k, a) :: enumerate_from (k + 1) rest
  end.

(** [lo <= i < hi] *)
Definition within (lo hi i : Z) : bool := ((lo <=? i) && (i <? hi))%Z.

(** The elements whose position lies in [lo, hi). *)
Definition pick {A : Type} (lo hi : Z) (l : list A) : list A :=
  map snd (filter (fun ia => within lo hi (fst ia)) (enumerate_from 0 l)).

(** The pixels of the field in rows [r0, r1) and columns [c0, c1). *)
Definition rect_pixels (field : ndarray) (r0 r1 c0 c1 : Z) : ndarray :=
  map (pick c0 c1) (pick r0 r1 field).

(** The column count of line 101. *)
Definition cols_of (img : Image) (lines : Z) : Z :=
  int (inject_Z lines * (inject_Z (width img) / inject_Z (height img)) * 2).

(** The grid of glyphs built by the two loops of lines 127-134. *)
Definition glyph_rows (brightness_arr : ndarray) (lines cols : Z) (cell_w cell_h : Q)
  : list str :=
  map (fun y =>
         map (fun x => best_fit_quadrant (sample_cell brightness_arr x y cell_w cell_h))
             (range cols))
      (range lines).

(** [s.split(sep)] for a separator of one character. *)
Fixpoint split_on (sep : char) (s : str) : list str :=
  match s with
  | [] => [[]]
  | c :: rest =>
      if String.eqb c sep then [] :: split_on sep rest
      else match split_on sep rest with
           | r :: rs => (c :: r) :: rs
           | [] => [[c]]
           end
  end.

(** Python's [round]: to the nearest integer, a tie going to the even one. *)
Definition round (q : Q) : Z :=
  let f := Qfloor q in
  match ((q - inject_Z f) ?= 0.5)%Q with
  | Lt => f
  | Gt => (f + 1)%Z
  | Eq => if Z.even f then f else (f + 1)%Z
  end.


(** Alpha is 0 at every pixel of the buffer. *)
Definition transparent (la : list (list (Z * Z))) : Prop :=
  Forall (Forall (fun p => snd p = 0%Z)) la.

(** Two real-valued samples with the same four values. *)
Definition quad_eq (s t : quad Q) : Prop :=
  tl s == tl t /\ tr s == tr t /\ bl s == bl t /\ br s == br t.

(** A float that is not a finite number. *)
Definition non_finite (x : float) : Prop := x = PInf \/ x = NInf \/ x = NaN.


(** [a[y][x]], and [d] outside of the array. *)
Definition pixel {A : Type} (d : A) (a : list (list A)) (x y : Z) : A :=
  nth (Z.to_nat x) (nth (Z.to_nat y) a []) d.

(** The array has [rows] rows of [cols] elements. *)
Definition has_shape {A : Type} (a : list (list A)) (rows cols : Z) : Prop :=
  Z.of_nat (List.length a) = rows /\
  Forall (fun r => Z.of_nat (List.length r) = cols) a.

(** A finite float in [0, 1]. *)
Definition in_unit (x : float) : Prop := exists v, x = Fin v /\ 0 <= v <= 1.



(** The 2x2 block of pixels under the cell [(x, y)] of a buffer sampled at
    two pixels per cell. *)
Definition block {A : Type} (d : A) (a : list (list A)) (x y : Z) : quad A :=
  Quad (pixel d a (2 * x) (2 * y)) (pixel d a (2 * x + 1) (2 * y))
       (pixel d a (2 * x) (2 * y + 1)) (pixel d a (2 * x + 1) (2 * y + 1)).

(* ================================================================== *)
(** ** Floating point: binary32 and binary64 *)

Module IEEE.

(** [floor(log2 |q|)], for [q] other than zero. *)
Definition ilog2 (q : Q) : Z :=
  let e := (Z.log2 (Z.abs (Qnum q)) - Z.log2 (Z.pos (Qden q)))%Z in
  if Qle_bool (2 ^ e) (Qabs q) then e else (e - 1)%Z.

(** The exact value [q] rounded to the nearest number of the binary format
    of precision [p] whose exponents stay below [emax], ties going to the
    even mantissa; beyond the largest number the result is an infinity.
    Subnormal numbers are multiples of [2 ^ (3 - emax - p)]. *)
Definition round_to (p emax : Z) (q : Q) : float :=
  if Qeq_bool q 0 then Fin 0
  else
    let ex := Z.max (ilog2 q - p + 1) (3 - emax - p) in
    let r := inject_Z (round (q / 2 ^ ex)) * 2 ^ ex in
    if Qle_bool (2 ^ emax) (Qabs r)
    then (if Qle_bool 0 q then PInf else NInf)
    else Fin (Qred r).

Definition rnd (p emax : Z) (x : float) : float :=
  match x with
  | Fin q => round_to p emax (Qred q)
  | _ => x
  end.

(** binary32 ([np.float32]) and binary64 (Python's [float]). *)
Definition f32 : float -> float := rnd 24 128.
Definition f64 : float -> float := rnd 53 1024.

Definition add32 (a b : float) : float := f32 (fadd a b).
Definition sub32 (a b : float) : float := f32 (fsub a b).
Definition mul32 (a b : float) : float := f32 (fmul a b).
Definition div32 (a b : float) : float := f32 (fdiv a b).
Definition add64 (a b : float) : float := f64 (fadd a b).
Definition mul64 (a b : float) : float := f64 (fmul a b).
Definition div64 (a b : float) : float := f64 (fdiv a b).

(** [int / int] on Python integers: the quotient, correctly rounded. *)
Definition truediv (a b : Z) : result float :=
  if (b =? 0)%Z then Raise "ZeroDivisionError"
  else match f64 (Fin (inject_Z a / inject_Z b)) with
       | Fin q => Ok (Fin q)
       | _ => Raise "OverflowError"
       end.

(** The conversion of a Python integer in [int * float] and [int + float]. *)
Definition of_int (z : Z) : result float :=
  match f64 (Fin (inject_Z z)) with
  | Fin q => Ok (Fin q)
  | _ => Raise "OverflowError"
  end.

(** [int(x)] on a Python float. *)
Definition int (x : float) : result Z :=
  match x with
  | Fin q => Ok (int q)
  | NaN => Raise "ValueError"
  | _ => Raise "OverflowError"
  end.

(** [map] in the monad of results: the first exception stops the loop. *)
Fixpoint for_each {A B : Type} (f : A -> result B) (l : list A) : result (list B) :=
  match l with
  | [] => Ok []
  | a :: rest => b <- f a ;; bs <- for_each f rest ;; Ok (b :: bs)
  end.

(** Line 39: the patterns as [float32] arrays. *)
Definition PATTERNS : list (char * quad float) :=
  map (fun cp => (fst cp, quad_map (fun v => f32 (Fin v)) (snd cp))) ALL_PATTERNS.

Definition boost_contrast_elt (strength : float) (b : float) : float :=
  clip (add32 (mul32 (sub32 b (Fin 0.5)) (f32 strength)) (Fin 0.5)) (Fin 0) (Fin 1).

Definition boost_contrast (brightness : ndarray) (strength : float) : ndarray :=
  map2d (boost_contrast_elt strength) brightness.

(** [np.sum] of a 2x2 array, in the order of its elements. *)
Definition quad_sum (p : quad float) : float :=
  fold_left add32 [tl p; tr p; bl p; br p] (Fin 0).

Definition sq_dist (q pattern : quad float) : float :=
  quad_sum (quad_map (fun d => mul32 d d) (quad_map2 sub32 q pattern)).

Definition best_fit_step (q : quad float) (st : float * char)
  (entry : char * quad float) : float * char :=
  let dist := sq_dist q (snd entry) in
  if fltb dist (fst st) then (dist, fst entry) else st.

Definition best_fit_quadrant (q : quad float) : char :=
  snd (fold_left (best_fit_step q) PATTERNS (PInf, " ")).

(** [a.mean()] on a [float32] array: numpy adds the elements in [float32],
    divides the sum by their number in [float64] (the count is an [intp]
    scalar) and casts the quotient back to [float32].  The order in which
    numpy adds the elements is its own business; here it is row-major.  On
    an empty array the quotient is [0/0], that is [nan]. *)
Definition mean (a : ndarray) : float :=
  let flat := concat a in
  f32 (div64 (fold_left add32 flat (Fin 0))
             (f64 (Fin (inject_Z (Z.of_nat (List.length flat)))))).

(** The three pixel boundaries of a cell on one axis. *)
Definition cell_bounds (i : Z) (size : float) : result (Z * Z * Z) :=
  fi <- of_int i ;;
  i_start <- int (mul64 fi size) ;;
  i_mid <- int (mul64 (add64 fi (Fin 0.5)) size) ;;
  fi1 <- of_int (i + 1) ;;
  i_end <- int (mul64 fi1 size) ;;
  Ok (i_start, i_mid, i_end).

Definition sample_cell (img_array : ndarray) (x y : Z) (cell_w cell_h : float)
  : result (quad float) :=
  xb <- cell_bounds x cell_w ;;
  yb <- cell_bounds y cell_h ;;
  let '(x_start, x_mid, x_end) := xb in
  let '(y_start, y_mid, y_end) := yb in
  let tl := mean (slice2d img_array y_start y_mid x_start x_mid) in
  let tr := mean (slice2d img_array y_start y_mid x_mid x_end) in
  let bl := mean (slice2d img_array y_mid y_end x_start x_mid) in
  let br := mean (slice2d img_array y_mid y_end x_mid x_end) in
  Ok (Quad tl tr bl br).

Definition byte_to_unit (b : Z) : float := div32 (f32 (Fin (inject_Z b))) (Fin 255).

Definition brightness_shift (gray_arr : ndarray) (brightness : float) : ndarray :=
  if fneb brightness (Fin 0)
  then map2d (fun g => clip (add32 g (f32 brightness)) (Fin 0) (Fin 1)) gray_arr
  else gray_arr.

Definition composite (gray_arr alpha_arr : ndarray) : ndarray :=
  zip2d mul32 gray_arr alpha_arr.

Definition brightness_field (la : list (list (Z * Z))) (contrast brightness : float)
  : ndarray :=
  let gray_arr := map2d (fun p => byte_to_unit (fst p)) la in
  let alpha_arr := map2d (fun p => byte_to_unit (snd p)) la in
  let gray_arr := brightness_shift gray_arr brightness in
  let brightness_arr := composite gray_arr alpha_arr in
  boost_contrast brightness_arr contrast.

(** The column count of lines 100-101. *)
Definition cols_of (img : Image) (lines : Z) : result Z :=
  aspect <- truediv (width img) (height img) ;;
  flines <- of_int lines ;;
  int (mul64 (mul64 flines aspect) (Fin 2)).

Definition image_to_blocks (img : Image) (lines : Z) (contrast brightness : float)
  : result str :=
  cols <- cols_of img lines ;;
  let target_w := (cols * 2)%Z in
  let target_h := (lines * 2)%Z in
  la <- resize img (target_w, target_h) ;;
  let brightness_arr := brightness_field la contrast brightness in
  cell_h <- truediv target_h lines ;;
  cell_w <- truediv target_w cols ;;
  result <-
    for_each (fun y =>
                for_each (fun x =>
                            quad <- sample_cell brightness_arr x y cell_w cell_h ;;
                            Ok (best_fit_quadrant quad))
                         (range cols))
             (range lines) ;;
  Ok (join [newline] result).

End IEEE.

(* ================================================================== *)
(** ** Vocabulary of the floating-point properties *)

(** The value of a finite float. *)
Definition val (x : float) : Q :=
  match x with
  | Fin q => q
  | _ => 0
  end.

(** A float that is [+inf] or a finite number that is not negative. *)
Definition nonneg (x : float) : Prop := x = PInf \/ exists v, x = Fin v /\ 0 <= v.

(** Identity of two floats as the model represents them. *)
Definition float_eqb (a b : float) : bool :=
  match a, b with
  | Fin x, Fin y => (Qnum x =? Qnum y)%Z && (Qden x =? Qden y)%positive
  | PInf, PInf | NInf, NInf | NaN, NaN => true
  | _, _ => false
  end.


(** The 2x2 sample of the cell [(x, y)] of a field sampled at two pixels
    per cell: each quadrant is the slice of one pixel. *)
Definition sample_two (a : ndarray) (x y : Z) : quad float :=
  Quad (IEEE.mean (slice2d a (2 * y) (2 * y + 1) (2 * x) (2 * x + 1)))
       (IEEE.mean (slice2d a (2 * y) (2 * y + 1) (2 * x + 1) (2 * x + 2)))
       (IEEE.mean (slice2d a (2 * y + 1) (2 * y + 2) (2 * x) (2 * x + 1)))
       (IEEE.mean (slice2d a (2 * y + 1) (2 * y + 2) (2 * x + 1) (2 * x + 2))).

(** Entry [i] of [l], of glyph [g] and pattern [p], is the first entry of
    [l] below whose distance to the sample [q], as the code computes it in
    [float32], no other distance compares. *)
Definition first_least (q : quad float) (l : list (char * quad float)) (i : nat)
  (g : char) (p : quad float) : Prop :=
  nth_error l i = Some (g, p) /\
  forall j g' p', nth_error l j = Some (g', p') ->
    fltb (IEEE.sq_dist q p') (IEEE.sq_dist q p) = false /\
    ((j < i)%nat -> fltb (IEEE.sq_dist q p) (IEEE.sq_dist q p') = true).

(** The positions of the three boundaries of cell [i], as [float64]
    products of the index and the cell size. *)
Definition start_pos (i : Z) (size : float) : float :=
  IEEE.mul64 (Fin (inject_Z i)) size.
Definition mid_pos (i : Z) (size : float) : float :=
  IEEE.mul64 (IEEE.add64 (Fin (inject_Z i)) (Fin 0.5)) size.
Definition end_pos (i : Z) (size : float) : float :=
  IEEE.mul64 (Fin (inject_Z (i + 1))) size.

(** The float is [0.0] or [nan]. *)
Definition zero_or_NaN (x : float) : Prop := x = Fin 0 \/ x = NaN.

(** The state of the loop of [best_fit_quadrant] after the entries of [l]:
    [min_dist] is below no distance met, and [best_char] is the initial
    space with [min_dist] still [+inf], or the glyph of the first entry of
    distance [min_dist]. *)
Definition scanned (q : quad float) (l : list (char * quad float)) (st : float * char)
  : Prop :=
  nonneg (fst st) /\
  (forall j g' p', nth_error l j = Some (g', p') ->
     fltb (IEEE.sq_dist q p') (fst st) = false) /\
  ((fst st = PInf /\ snd st = " ") \/
   exists i p, nth_error l i = Some (snd st, p) /\ fst st = IEEE.sq_dist q p /\
     forall j g' p', nth_error l j = Some (g', p') -> (j < i)%nat ->
       fltb (IEEE.sq_dist q p) (IEEE.sq_dist q p') = true).


(* ================================================================== *)
(** ** Comparisons on rationals and floats *)

Lemma Qltb_true (a b : Q) : Qltb a b = true <-> a < b.
Proof.
  unfold Qltb. rewrite negb_true_iff.
  split; intro H.
  - apply Qnot_le_lt. intro Hle. apply Qle_bool_iff in Hle. congruence.
  - destruct (Qle_bool b a) eqn:E; [|reflexivity].
    apply Qle_bool_iff in E. exfalso. exact (Qlt_not_le _ _ H E).
Qed.

Lemma Qltb_false (a b : Q) : Qltb a b = false <-> b <= a.
Proof.
  unfold Qltb. rewrite negb_false_iff. apply Qle_bool_iff.
Qed.

(* ================================================================== *)
(** ** Properties of the palette *)

Lemma distinctb_NoDup (l : list string) : distinctb l = true -> NoDup l.
Proof.
  induction l as [|c rest IH]; simpl; intro H.
  - constructor.
  - apply andb_true_iff in H. destruct H as [Hc Hrest].
    constructor; [|auto].
    intro Hin. apply negb_true_iff in Hc.
    assert (existsb (String.eqb c) rest = true) as Hex.
    { apply existsb_exists. exists c. split; [assumption|apply String.eqb_refl]. }
    congruence.
Qed.

Lemma quad_eta (A : Type) (p : quad A) : p = Quad (tl p) (tr p) (bl p) (br p).
Proof. destruct p; reflexivity. Qed.

(** C8. The palette is the sixteen binary quadrant patterns, each exactly
    once, followed by the three uniform patterns at 0.25, 0.5 and 0.75; its
    glyphs are pairwise distinct and every pattern value lies in [0, 1]. *)
Theorem palette_contents :
  List.length ALL_PATTERNS = 19%nat /\
  (forall p, In p (map snd (firstn 16 ALL_PATTERNS)) <-> is_binary p) /\
  NoDup (map snd (firstn 16 ALL_PATTERNS)) /\
  map snd (skipn 16 ALL_PATTERNS) = [uniform 0.25; uniform 0.5; uniform 0.75] /\
  NoDup (map fst ALL_PATTERNS) /\
  Forall in_unit_interval (map snd ALL_PATTERNS) /\
  PATTERNS = map (fun cp => (fst cp, quad_map Fin (snd cp))) ALL_PATTERNS.
Proof.
  split; [reflexivity|].
  split.
  { intro p. split.
    - simpl. unfold is_binary.
      intro H.
      repeat (destruct H as [H|H]; [subst p; simpl; tauto|]).
      contradiction.
    - intros (Ha & Hb & Hc & Hd).
      rewrite (quad_eta p).
      destruct Ha as [-> | ->], Hb as [-> | ->], Hc as [-> | ->], Hd as [-> | ->];
        simpl; tauto. }
  split.
  { simpl. repeat (constructor; [simpl; intuition discriminate|]). constructor. }
  split; [reflexivity|].
  split; [apply distinctb_NoDup; vm_compute; reflexivity|].
  split; [|reflexivity].
  unfold ALL_PATTERNS, QUADRANT_PATTERNS, SHADE_PATTERNS. simpl.
  repeat (constructor; [unfold in_unit_interval; simpl; repeat split; discriminate|]).
  constructor.
Qed.

(* ================================================================== *)
(** ** Properties of the pattern matcher *)

Section Scan.

Variable q : quad float.

(** The loop keeps its candidate or takes the glyph of the entry. *)
Lemma scan_candidate (l : list (char * quad float)) (st : float * char) :
  snd (fold_left (best_fit_step q) l st) = snd st \/
  In (snd (fold_left (best_fit_step q) l st)) (map fst l).
Proof.
  revert st. induction l as [|entry l IH]; intro st; simpl.
  - left. reflexivity.
  - destruct (IH (best_fit_step q st entry)) as [H|H].
    + rewrite H. unfold best_fit_step.
      destruct (fltb (sq_dist q (snd entry)) (fst st)); simpl; auto.
    + right. right. exact H.
Qed.

End Scan.

(** The initial candidate is itself a glyph of the palette. *)
Lemma scan_palette (q : quad float) :
  In (snd (fold_left (best_fit_step q) PATTERNS (PInf, " "))) (map fst PATTERNS).
Proof.
  destruct (scan_candidate q PATTERNS (PInf, " ")) as [H|H].
  - rewrite H. simpl. left. reflexivity.
  - exact H.
Qed.

(** C10. For every 2x2 sample, whatever its values (out of range, infinite
    or [nan]), [best_fit_quadrant] is a total function that returns a
    character of the palette. *)
Theorem best_fit_in_palette (q : quad float) :
  In (best_fit_quadrant q) (map fst PATTERNS).
Proof. unfold best_fit_quadrant. apply scan_palette. Qed.

Lemma sq_dist_finite (s p : quad Q) :
  exists d, sq_dist (np_array s) (np_array p) = Fin d /\ d == sq_distance s p.
Proof.
  destruct s as [a b c d], p as [a' b' c' d'].
  eexists. split.
  - reflexivity.
  - unfold sq_distance. simpl. ring.
Qed.

Lemma scan_first_minimum (s : quad Q) (l : list (char * quad Q)) :
  l <> [] ->
  exists i g p d,
    fold_left (best_fit_step (np_array s)) (to_arrays l) (PInf, " ") = (Fin d, g) /\
    d == sq_distance s p /\
    first_minimum s l i g p.
Proof.
  induction l as [|[g2 p2] l IH] using rev_ind; [congruence|].
  intros _. unfold to_arrays. rewrite map_app, fold_left_app. simpl.
  destruct (sq_dist_finite s p2) as (d2 & Hd2 & Hd2eq).
  destruct l as [|e l'].
  - simpl. unfold best_fit_step. simpl snd. rewrite Hd2. simpl.
    exists 0%nat, g2, p2, d2. split; [reflexivity|]. split; [assumption|].
    split; [reflexivity|].
    intros j g' p' Hj. destruct j as [|j]; simpl in Hj.
    + inversion Hj; subst. split; [lra|lia].
    + destruct j; discriminate.
  - destruct IH as (i & g & p & d & Hfold & Hd & Hnth & Hmin); [discriminate|].
    fold (to_arrays (e :: l')). rewrite Hfold.
    unfold best_fit_step. simpl snd. simpl fst. rewrite Hd2. simpl fltb.
    assert (i < List.length (e :: l'))%nat as Hi.
    { apply nth_error_Some. rewrite Hnth. discriminate. }
    destruct (Qltb d2 d) eqn:Hlt.
    + apply Qltb_true in Hlt.
      exists (List.length (e :: l')), g2, p2, d2.
      split; [reflexivity|]. split; [assumption|]. split.
      * rewrite nth_error_app2 by lia. rewrite Nat.sub_diag. reflexivity.
      * intros j g' p' Hj.
        destruct (Nat.lt_ge_cases j (List.length (e :: l'))) as [Hjl|Hjl].
        -- rewrite nth_error_app1 in Hj by assumption.
           destruct (Hmin _ _ _ Hj) as [Hle _].
           split; [lra|intros _; lra].
        -- rewrite nth_error_app2 in Hj by assumption.
           destruct (j - List.length (e :: l'))%nat as [|k] eqn:Hk; simpl in Hj.
           ++ inversion Hj; subst. split; [lra|lia].
           ++ destruct k; discriminate.
    + apply Qltb_false in Hlt.
      exists i, g, p, d.
      split; [reflexivity|]. split; [assumption|]. split.
      * rewrite nth_error_app1 by assumption. exact Hnth.
      * intros j g' p' Hj.
        destruct (Nat.lt_ge_cases j (List.length (e :: l'))) as [Hjl|Hjl].
        -- rewrite nth_error_app1 in Hj by assumption. exact (Hmin _ _ _ Hj).
        -- rewrite nth_error_app2 in Hj by assumption.
           destruct (j - List.length (e :: l'))%nat as [|k] eqn:Hk; simpl in Hj.
           ++ inversion Hj; subst. split; [lra|lia].
           ++ destruct k; discriminate.
Qed.

Lemma best_fit_first_minimum (s : quad Q) :
  exists i p, first_minimum s ALL_PATTERNS i (best_fit_quadrant (np_array s)) p.
Proof.
  destruct (@scan_first_minimum s ALL_PATTERNS) as (i & g & p & d & Hfold & _ & Hmin).
  { discriminate. }
  exists i, p. unfold best_fit_quadrant.
  change PATTERNS with (to_arrays ALL_PATTERNS). rewrite Hfold. exact Hmin.
Qed.

(* ================================================================== *)
(** ** Properties of the tone adjustment *)




Lemma combine_map_same (A B C : Type) (g : A -> B) (h : A -> C) (l : list A) :
  combine (map g l) (map h l) = map (fun a => (g a, h a)) l.
Proof. induction l; simpl; congruence. Qed.

Lemma zip2d_map2d (A B C D : Type) (f : B -> C -> D) (g : A -> B) (h : A -> C)
  (arr : list (list A)) :
  zip2d f (map2d g arr) (map2d h arr) = map2d (fun a => f (g a) (h a)) arr.
Proof.
  unfold zip2d, map2d. rewrite combine_map_same, map_map.
  apply map_ext. intro row. simpl.
  rewrite combine_map_same, map_map. reflexivity.
Qed.

Lemma map2d_map2d (A B C : Type) (f : A -> B) (g : B -> C) (arr : list (list A)) :
  map2d g (map2d f arr) = map2d (fun a => g (f a)) arr.
Proof.
  unfold map2d. rewrite map_map. apply map_ext. intro row. apply map_map.
Qed.

(* ================================================================== *)
(** ** Properties of the cell sampler *)

Lemma int_floor (q : Q) : 0 <= q -> int q = Qfloor q.
Proof.
  destruct q as [n d]. unfold Qle, int, Qfloor. simpl. intro H.
  apply Z.quot_div_nonneg; lia.
Qed.

Lemma slice_index_nonneg (n i : Z) : (0 <= i)%Z -> slice_index n i = Z.min i n.
Proof.
  intro H. unfold slice_index.
  destruct (i <? 0)%Z eqn:E; [apply Z.ltb_lt in E; lia|reflexivity].
Qed.

(** A slice whose stop does not exceed its start is empty. *)
Lemma slice_empty (A : Type) (l : list A) (s e : Z) :
  (0 <= s)%Z -> (0 <= e)%Z -> (e <= s)%Z -> slice l s e = [].
Proof.
  intros Hs He Hes. unfold slice.
  rewrite !slice_index_nonneg by assumption.
  replace (Z.to_nat (Z.min e (Z.of_nat (List.length l)) -
                     Z.min s (Z.of_nat (List.length l)))) with 0%nat by lia.
  reflexivity.
Qed.

Lemma concat_all_nil (A : Type) (l : list (list A)) :
  Forall (fun r => r = []) l -> concat l = [].
Proof. induction 1; simpl; subst; auto. Qed.

Section CellBounds.

Variables (x y : Z) (cell_w cell_h : Q).

Lemma sample_cell_bounds (img_array : ndarray) :
sample_cell img_array x y cell_w cell_h =
  Quad (mean (slice2d img_array (y_start y cell_h) (y_mid y cell_h)
                      (x_start x cell_w) (x_mid x cell_w)))
       (mean (slice2d img_array (y_start y cell_h) (y_mid y cell_h)
                      (x_mid x cell_w) (x_end x cell_w)))
       (mean (slice2d img_array (y_mid y cell_h) (y_end y cell_h)
                      (x_start x cell_w) (x_mid x cell_w)))
       (mean (slice2d img_array (y_mid y cell_h) (y_end y cell_h)
                      (x_mid x cell_w) (x_end x cell_w))).
Proof. reflexivity. Qed.

Hypothesis Hx : (0 <= x)%Z.
Hypothesis Hy : (0 <= y)%Z.
Hypothesis Hw : 0 <= cell_w.
Hypothesis Hh : 0 <= cell_h.

Lemma inject_Z_nonneg (z : Z) : (0 <= z)%Z -> 0 <= inject_Z z.
Proof. intro H. change 0 with (inject_Z 0). rewrite <- Zle_Qle. exact H. Qed.

End CellBounds.

Lemma pick_from (A : Type) (l : list A) : forall k s e,
  map snd (filter (fun ia => within s e (fst ia)) (enumerate_from k l)) =
  firstn (Z.to_nat (Z.min e (k + Z.of_nat (List.length l)) - Z.max s k))
         (skipn (Z.to_nat (Z.max s k - k)) l).
Proof.
  induction l as [|a t IH]; intros k s e.
  - simpl. rewrite skipn_nil, firstn_nil. reflexivity.
  - cbn [enumerate_from filter fst]. 
    specialize (IH (k + 1)%Z s e).
    replace (Z.of_nat (List.length (a :: t))) with (Z.of_nat (List.length t) + 1)%Z
      by (simpl List.length; lia).
    destruct (within s e k) eqn:Hin.
    + unfold within in Hin. apply andb_true_iff in Hin. destruct Hin as [H1 H2].
      apply Z.leb_le in H1. apply Z.ltb_lt in H2.
      cbn [map snd]. rewrite IH.
      replace (Z.to_nat (Z.max s k - k)) with 0%nat by lia.
      replace (Z.to_nat (Z.max s (k + 1) - (k + 1))) with 0%nat by lia.
      cbn [skipn].
      replace (Z.to_nat (Z.min e (k + (Z.of_nat (List.length t) + 1)) - Z.max s k))
        with (S (Z.to_nat (Z.min e (k + 1 + Z.of_nat (List.length t)) - Z.max s (k + 1))))
        by lia.
      reflexivity.
    + rewrite IH. unfold within in Hin. apply andb_false_iff in Hin.
      destruct (Z.lt_ge_cases k s) as [Hks|Hks].
      * replace (Z.to_nat (Z.max s k - k))
          with (S (Z.to_nat (Z.max s (k + 1) - (k + 1)))) by lia.
        cbn [skipn].
        replace (Z.min e (k + (Z.of_nat (List.length t) + 1)) - Z.max s k)%Z
          with (Z.min e (k + 1 + Z.of_nat (List.length t)) - Z.max s (k + 1))%Z by lia.
        reflexivity.
      * assert (e <= k)%Z as Hek.
        { destruct Hin as [Hin|Hin].
          - apply Z.leb_gt in Hin. lia.
          - apply Z.ltb_ge in Hin. exact Hin. }
        replace (Z.to_nat (Z.min e (k + 1 + Z.of_nat (List.length t)) - Z.max s (k + 1)))
          with 0%nat by lia.
        replace (Z.to_nat (Z.min e (k + (Z.of_nat (List.length t) + 1)) - Z.max s k))
          with 0%nat by lia.
        reflexivity.
Qed.

(** A slice with bounds that are not negative holds the elements whose
    position lies between the bounds. *)
Lemma slice_pick (A : Type) (l : list A) (s e : Z) :
  (0 <= s)%Z -> (0 <= e)%Z -> slice l s e = pick s e l.
Proof.
  intros Hs He. unfold pick. rewrite pick_from. unfold slice.
  rewrite !slice_index_nonneg by assumption.
  replace (Z.max s 0 - 0)%Z with s by lia.
  replace (Z.max s 0) with s by lia.
  replace (0 + Z.of_nat (List.length l))%Z with (Z.of_nat (List.length l)) by lia.
  destruct (Z.le_gt_cases s (Z.of_nat (List.length l))) as [H|H].
  - replace (Z.min s (Z.of_nat (List.length l))) with s by lia. reflexivity.
  - rewrite (skipn_all2 l (n := Z.to_nat s)) by lia.
    rewrite firstn_nil.
    replace (Z.to_nat (Z.min e (Z.of_nat (List.length l)) -
                       Z.min s (Z.of_nat (List.length l)))) with 0%nat by lia.
    reflexivity.
Qed.

Lemma slice2d_rect_pixels (a : ndarray) (r0 r1 c0 c1 : Z) :
  (0 <= r0)%Z -> (0 <= r1)%Z -> (0 <= c0)%Z -> (0 <= c1)%Z ->
  slice2d a r0 r1 c0 c1 = rect_pixels a r0 r1 c0 c1.
Proof.
  intros Hr0 Hr1 Hc0 Hc1. unfold slice2d, rect_pixels.
  rewrite slice_pick by assumption.
  apply map_ext. intro row. apply slice_pick; assumption.
Qed.

(* ================================================================== *)
(** ** Properties of the pipeline *)

Lemma truediv_ok (a b : Z) : b <> 0%Z -> truediv a b = Ok (inject_Z a / inject_Z b).
Proof.
  intro H. unfold truediv. destruct (b =? 0)%Z eqn:E; [|reflexivity].
  apply Z.eqb_eq in E. contradiction.
Qed.

Lemma truediv_zero (a : Z) : truediv a 0 = Raise "ZeroDivisionError".
Proof. reflexivity. Qed.

(** When no division is by zero and the resize succeeds, the function
    returns the joined grid. *)
Lemma image_to_blocks_ok (img : Image) (lines : Z) (contrast brightness : float)
  (la : list (list (Z * Z))) :
  height img <> 0%Z -> lines <> 0%Z -> cols_of img lines <> 0%Z ->
  resize img ((cols_of img lines * 2)%Z, (lines * 2)%Z) = Ok la ->
  image_to_blocks img lines contrast brightness =
    Ok (join [newline]
          (glyph_rows (brightness_field la contrast brightness) lines (cols_of img lines)
             (inject_Z (cols_of img lines * 2) / inject_Z (cols_of img lines))
             (inject_Z (lines * 2) / inject_Z lines))).
Proof.
  intros Hh Hl Hc Hr. unfold image_to_blocks.
  rewrite (truediv_ok _ Hh). cbn [bind].
  fold (cols_of img lines). rewrite Hr. cbn [bind].
  rewrite (truediv_ok _ Hl). cbn [bind].
  rewrite (truediv_ok _ Hc). cbn [bind].
  reflexivity.
Qed.

Lemma range_length (n : Z) : List.length (range n) = Z.to_nat n.
Proof. unfold range. rewrite length_map, length_seq. reflexivity. Qed.

Lemma split_on_row (sep : char) (p rest : str) :
  ~ In sep p -> split_on sep (p ++ sep :: rest) = p :: split_on sep rest.
Proof.
  induction p as [|c p IH]; intro H; simpl.
  - rewrite String.eqb_refl. reflexivity.
  - destruct (String.eqb c sep) eqn:E.
    + apply String.eqb_eq in E. exfalso. apply H. left. exact E.
    + rewrite IH by (intro Hin; apply H; right; exact Hin). reflexivity.
Qed.

Lemma split_on_last (sep : char) (p : str) : ~ In sep p -> split_on sep p = [p].
Proof.
  induction p as [|c p IH]; intro H; simpl.
  - reflexivity.
  - destruct (String.eqb c sep) eqn:E.
    + apply String.eqb_eq in E. exfalso. apply H. left. exact E.
    + rewrite IH by (intro Hin; apply H; right; exact Hin). reflexivity.
Qed.

(** Splitting the joined rows at the line breaks gives the rows back. *)
Lemma split_join (sep : char) (rows : list str) :
  rows <> [] -> Forall (fun r => ~ In sep r) rows ->
  split_on sep (join [sep] rows) = rows.
Proof.
  induction rows as [|p rows IH]; intros Hne Hall; [congruence|].
  inversion Hall as [|? ? Hp Hrows]; subst.
  destruct rows as [|p' rows'].
  - simpl. apply split_on_last. exact Hp.
  - change (join [sep] (p :: p' :: rows')) with (p ++ sep :: join [sep] (p' :: rows')).
    rewrite split_on_row by exact Hp.
    f_equal. apply IH; [discriminate|exact Hrows].
Qed.





(* ================================================================== *)
(** ** Rendering of transparent images *)

Lemma Forall_firstn_skipn (A : Type) (P : A -> Prop) (n : nat) (l : list A) :
  Forall P l -> Forall P (firstn n l) /\ Forall P (skipn n l).
Proof.
  intro H. rewrite <- (firstn_skipn n l) in H. apply Forall_app in H. exact H.
Qed.

Lemma Forall_slice (A : Type) (P : A -> Prop) (l : list A) (s e : Z) :
  Forall P l -> Forall P (slice l s e).
Proof.
  intro H. unfold slice.
  apply Forall_firstn_skipn. apply Forall_firstn_skipn. exact H.
Qed.

Lemma map_constant (A B : Type) (f : A -> B) (b : B) (l : list A) :
  (forall a, In a l -> f a = b) -> map f l = repeat b (List.length l).
Proof.
  induction l as [|a l IH]; intro H; simpl.
  - reflexivity.
  - rewrite H by (left; reflexivity).
    rewrite IH by (intros a' Ha'; apply H; right; exact Ha'). reflexivity.
Qed.

(* ================================================================== *)
(** ** Further properties of the pattern matcher *)

Lemma sq_distance_proper (s t p : quad Q) :
  quad_eq s t -> sq_distance s p == sq_distance t p.
Proof.
  intros (Ha & Hb & Hc & Hd). unfold sq_distance. simpl.
  rewrite Ha, Hb, Hc, Hd. reflexivity.
Qed.

Lemma first_minimum_proper (s t : quad Q) (l : list (char * quad Q)) (i : nat)
  (g : char) (p : quad Q) :
  quad_eq s t -> first_minimum s l i g p -> first_minimum t l i g p.
Proof.
  intros Heq [Hnth Hmin]. split; [exact Hnth|].
  intros j g' p' Hj. destruct (Hmin j g' p' Hj) as [Hle Hlt].
  rewrite <- !(sq_distance_proper _ Heq). split; assumption.
Qed.

Lemma first_minimum_unique (s : quad Q) (l : list (char * quad Q)) (i k : nat)
  (g g' : char) (p p' : quad Q) :
  first_minimum s l i g p -> first_minimum s l k g' p' -> i = k /\ g = g'.
Proof.
  intros [Hi Hmi] [Hk Hmk].
  destruct (Hmi k g' p' Hk) as [Hle1 Hlt1].
  destruct (Hmk i g p Hi) as [Hle2 Hlt2].
  assert (i = k) as E.
  { destruct (Nat.lt_trichotomy i k) as [H|[H|H]]; [|exact H|].
    - specialize (Hlt2 H). lra.
    - specialize (Hlt1 H). lra. }
  split; [exact E|]. subst k. rewrite Hi in Hk. congruence.
Qed.

(** The glyph depends on the values of the sample only. *)
Lemma best_fit_proper (s t : quad Q) :
  quad_eq s t -> best_fit_quadrant (np_array s) = best_fit_quadrant (np_array t).
Proof.
  intro Heq.
  destruct (best_fit_first_minimum s) as (i & p & Hs).
  destruct (best_fit_first_minimum t) as (k & p' & Ht).
  apply (first_minimum_proper Heq) in Hs.
  exact (proj2 (first_minimum_unique Hs Ht)).
Qed.

Lemma best_fit_palette_pattern (g : char) (p : quad Q) :
  In (g, p) ALL_PATTERNS -> best_fit_quadrant (np_array p) = g.
Proof.
  intro H. simpl in H.
  repeat (destruct H as [H|H]; [inversion H; subst; vm_compute; reflexivity|]).
  contradiction.
Qed.

(** X1. A sample whose four values are those of the pattern of a palette
    entry is matched to the glyph of that entry. *)
Theorem best_fit_exact_match (s : quad Q) (g : char) (p : quad Q)
  (Hin : In (g, p) ALL_PATTERNS) (Heq : quad_eq s p) :
  best_fit_quadrant (np_array s) = g.
Proof.
  rewrite (best_fit_proper Heq). apply best_fit_palette_pattern. exact Hin.
Qed.

Lemma best_fit_exact_match_witness :
  best_fit_quadrant (np_array (Quad (2 # 2) 0 (0 # 3) (5 # 5))) = "▚".
Proof.
  refine (@best_fit_exact_match (Quad (2 # 2) 0 (0 # 3) (5 # 5)) "▚" (Quad 1 0 0 1) _ _).
  - simpl. tauto.
  - unfold quad_eq. simpl. repeat split; reflexivity.
Defined.

(** Against a finite pattern, a sample with a value that is not finite has
    an infinite or undefined distance. *)
Lemma sq_dist_non_finite (q : quad float) (p : quad Q) :
  non_finite (tl q) \/ non_finite (tr q) \/ non_finite (bl q) \/ non_finite (br q) ->
  sq_dist q (np_array p) = PInf \/ sq_dist q (np_array p) = NaN.
Proof.
  destruct q as [a b c d], p as [pa pb pc pd]. unfold non_finite. simpl.
  intro H.
  destruct a, b, c, d; vm_compute; auto;
    exfalso; intuition discriminate.
Qed.

Lemma scan_never_below (q : quad float) (l : list (char * quad float)) :
  Forall (fun entry => fltb (sq_dist q (snd entry)) PInf = false) l ->
  fold_left (best_fit_step q) l (PInf, " ") = (PInf, " ").
Proof.
  induction 1 as [|entry l Hentry _ IH]; simpl.
  - reflexivity.
  - unfold best_fit_step at 2. cbn [fst]. rewrite Hentry. exact IH.
Qed.

(** No distance is below the initial [inf], and the initial candidate is
    returned. *)
Lemma non_finite_sample_space (q : quad float) :
  non_finite (tl q) \/ non_finite (tr q) \/ non_finite (bl q) \/ non_finite (br q) ->
  best_fit_quadrant q = " ".
Proof.
  intro H.
  unfold best_fit_quadrant. rewrite scan_never_below; [reflexivity|].
  unfold PATTERNS. apply Forall_map. apply Forall_forall. intros [g p] _.
  cbn [snd]. destruct (sq_dist_non_finite q p H) as [E|E]; rewrite E; reflexivity.
Qed.

(** X2. A sample with a value that is infinite or [nan] (the mean of an
    empty quadrant is [nan]) is matched to the space. *)
Theorem best_fit_non_finite (q : quad float)
  (H : non_finite (tl q) \/ non_finite (tr q) \/ non_finite (bl q) \/ non_finite (br q)) :
  best_fit_quadrant q = " ".
Proof. apply non_finite_sample_space. exact H. Qed.

Lemma best_fit_non_finite_witness :
  best_fit_quadrant (Quad (Fin 1) NaN (Fin 1) (Fin 1)) = " ".
Proof.
  refine (@best_fit_non_finite (Quad (Fin 1) NaN (Fin 1) (Fin 1)) _).
  right. left. right. right. reflexivity.
Defined.

(* ================================================================== *)
(** ** Further properties of the tone adjustment *)




(* ================================================================== *)
(** ** Further properties of the cell sampler and of the pipeline *)

Lemma int_proper (q r : Q) : q == r -> int q = int r.
Proof.
  destruct q as [n d], r as [n' d']. unfold Qeq, int. simpl. intro H.
  rewrite <- (Z.quot_mul_cancel_r n (Z.pos d) (Z.pos d')) by lia.
  rewrite <- (Z.quot_mul_cancel_r n' (Z.pos d') (Z.pos d)) by lia.
  rewrite H. f_equal. lia.
Qed.

Lemma int_inject_Z (z : Z) : int (inject_Z z) = z.
Proof. unfold int. simpl. apply Z.quot_1_r. Qed.



Lemma Forall_slice2d (A : Type) (P : A -> Prop) (a : list (list A)) (r0 r1 c0 c1 : Z) :
  Forall (Forall P) a -> Forall (Forall P) (slice2d a r0 r1 c0 c1).
Proof.
  intro H. unfold slice2d. apply Forall_map. apply Forall_forall.
  intros row Hrow. apply Forall_slice.
  exact (proj1 (Forall_forall _ _) (Forall_slice _ _ H) row Hrow).
Qed.


Lemma firstn_1_skipn (A : Type) (l : list A) : forall (k : nat) (a : A),
  nth_error l k = Some a -> firstn 1 (skipn k l) = [a].
Proof.
  induction l as [|b l IH]; intros k a H.
  - destruct k; discriminate.
  - destruct k as [|k]; simpl in *.
    + inversion H. reflexivity.
    + apply IH. exact H.
Qed.

Lemma slice_single (A : Type) (l : list A) (k : Z) (a : A) :
  (0 <= k)%Z -> nth_error l (Z.to_nat k) = Some a -> slice l k (k + 1) = [a].
Proof.
  intros Hk Hnth. unfold slice.
  assert (Z.to_nat k < List.length l)%nat as Hlt.
  { apply nth_error_Some. rewrite Hnth. discriminate. }
  rewrite !slice_index_nonneg by lia.
  replace (Z.min (k + 1) (Z.of_nat (List.length l))) with (k + 1)%Z by lia.
  replace (Z.min k (Z.of_nat (List.length l))) with k by lia.
  replace (Z.to_nat (k + 1 - k)) with 1%nat by lia.
  apply firstn_1_skipn. exact Hnth.
Qed.

Lemma nth_error_pixel (A : Type) (d : A) (a : list (list A)) (rows cols x y : Z) :
  has_shape a rows cols -> (0 <= x < cols)%Z -> (0 <= y < rows)%Z ->
  exists row, nth_error a (Z.to_nat y) = Some row /\
              nth_error row (Z.to_nat x) = Some (pixel d a x y).
Proof.
  intros [Hrows Hcols] Hx Hy. unfold pixel.
  assert (Z.to_nat y < List.length a)%nat as Hy' by lia.
  destruct (nth_error a (Z.to_nat y)) as [row|] eqn:E.
  2:{ apply nth_error_None in E. lia. }
  exists row. split; [reflexivity|].
  rewrite (nth_error_nth _ _ [] E).
  assert (In row a) as Hin by (eapply nth_error_In; exact E).
  pose proof (proj1 (Forall_forall _ _) Hcols row Hin) as Hlen. simpl in Hlen.
  apply nth_error_nth'. lia.
Qed.

Lemma slice2d_single (A : Type) (d : A) (a : list (list A)) (rows cols x y : Z) :
  has_shape a rows cols -> (0 <= x < cols)%Z -> (0 <= y < rows)%Z ->
  slice2d a y (y + 1) x (x + 1) = [[pixel d a x y]].
Proof.
  intros Hs Hx Hy.
  destruct (nth_error_pixel d Hs Hx Hy) as (row & Hrow & Hpix).
  unfold slice2d. rewrite (slice_single a (k := y) (a := row)) by (lia || assumption).
  simpl. rewrite (slice_single row (k := x) (a := pixel d a x y)) by (lia || assumption).
  reflexivity.
Qed.

Lemma mean_single (v : Q) : exists w, mean [[Fin v]] = Fin w /\ w == v.
Proof.
  exists ((0 + v) / inject_Z 1). split; [reflexivity|].
  change (inject_Z 1) with 1. field.
Qed.

Lemma In_range (n x : Z) : In x (range n) <-> (0 <= x < n)%Z.
Proof.
  unfold range. rewrite in_map_iff. split.
  - intros (k & <- & Hk). apply in_seq in Hk. lia.
  - intro H. exists (Z.to_nat x). split; [lia|]. apply in_seq. lia.
Qed.

Lemma pixel_map2d (A B : Type) (f : A -> B) (d : A) (a : list (list A)) (x y : Z) :
  pixel (f d) (map2d f a) x y = f (pixel d a x y).
Proof.
  unfold pixel, map2d.
  change (@nil B) with (map f (@nil A)). rewrite map_nth. apply map_nth.
Qed.

Lemma has_shape_map2d (A B : Type) (f : A -> B) (a : list (list A)) (rows cols : Z) :
  has_shape a rows cols -> has_shape (map2d f a) rows cols.
Proof.
  intros [Hr Hc]. unfold map2d. split.
  - rewrite length_map. exact Hr.
  - apply Forall_map. eapply Forall_impl; [|exact Hc].
    intros row Hrow. simpl. rewrite length_map. exact Hrow.
Qed.

Lemma bounds_two (i : Z) (size : Q) :
  size == 2 ->
  x_start i size = (2 * i)%Z /\ x_mid i size = (2 * i + 1)%Z /\
  x_end i size = (2 * i + 2)%Z.
Proof.
  intro H. unfold x_start, x_mid, x_end.
  repeat split.
  - rewrite <- (int_inject_Z (2 * i)). apply int_proper.
    rewrite H, inject_Z_mult. change (inject_Z 2) with 2. ring.
  - rewrite <- (int_inject_Z (2 * i + 1)). apply int_proper.
    rewrite H, inject_Z_plus, inject_Z_mult.
    change (inject_Z 2) with 2. change (inject_Z 1) with 1. ring.
  - rewrite <- (int_inject_Z (2 * i + 2)). apply int_proper.
    rewrite H, inject_Z_plus, inject_Z_mult. change (inject_Z 2) with 2. ring.
Qed.

Lemma sample_cell_two (A : Type) (val : A -> Q) (d : A) (arr : list (list A))
  (rows cols x y : Z) (cw ch : Q) :
  has_shape arr rows cols -> cw == 2 -> ch == 2 ->
  (0 <= x)%Z -> (2 * x + 1 < cols)%Z -> (0 <= y)%Z -> (2 * y + 1 < rows)%Z ->
  exists s,
    sample_cell (map2d (fun a => Fin (val a)) arr) x y cw ch = np_array s /\
    quad_eq s (quad_map val (block d arr x y)).
Proof.
  intros Hs Hw Hh Hx Hx' Hy Hy'.
  rewrite sample_cell_bounds.
  destruct (bounds_two x Hw) as (-> & -> & ->).
  destruct (bounds_two y Hh) as (E1 & E2 & E3).
  unfold y_start, y_mid, y_end. unfold x_start, x_mid, x_end in E1, E2, E3.
  rewrite E1, E2, E3. clear E1 E2 E3.
  replace (2 * x + 2)%Z with (2 * x + 1 + 1)%Z by lia.
  replace (2 * y + 2)%Z with (2 * y + 1 + 1)%Z by lia.
  pose proof (has_shape_map2d (fun a => Fin (val a)) Hs) as Hs'.
  rewrite !(slice2d_single (Fin (val d)) Hs') by lia.
  rewrite !(pixel_map2d (fun a => Fin (val a))).
  destruct (mean_single (val (pixel d arr (2 * x) (2 * y)))) as (a & -> & Ha).
  destruct (mean_single (val (pixel d arr (2 * x + 1) (2 * y)))) as (b & -> & Hb).
  destruct (mean_single (val (pixel d arr (2 * x) (2 * y + 1)))) as (c & -> & Hc).
  destruct (mean_single (val (pixel d arr (2 * x + 1) (2 * y + 1)))) as (e & -> & He).
  exists (Quad a b c e). split; [reflexivity|].
  unfold quad_eq, block. simpl. tauto.
Qed.

Lemma cell_size_two (n : Z) : n <> 0%Z -> inject_Z (n * 2) / inject_Z n == 2.
Proof.
  intro H. rewrite inject_Z_mult. change (inject_Z 2) with 2.
  field. intro E. apply H. unfold Qeq in E. simpl in E. lia.
Qed.

(** When the function returns, and what it raises otherwise. *)
Lemma image_to_blocks_outcome (img : Image) (lines : Z)
  (contrast brightness : float) :
  ((exists s, image_to_blocks img lines contrast brightness = Ok s) <->
   (height img <> 0%Z /\ lines <> 0%Z /\ cols_of img lines <> 0%Z /\
    exists la, resize img ((cols_of img lines * 2)%Z, (lines * 2)%Z) = Ok la)) /\
  (forall e, image_to_blocks img lines contrast brightness = Raise e ->
     e = "ZeroDivisionError" \/
     resize img ((cols_of img lines * 2)%Z, (lines * 2)%Z) = Raise e).
Proof.
  split.
  - split.
    + intros [s Hs]. unfold image_to_blocks in Hs. fold (cols_of img lines) in Hs.
      destruct (Z.eq_dec (height img) 0) as [Hh|Hh].
      { rewrite Hh, truediv_zero in Hs. discriminate. }
      rewrite (truediv_ok _ Hh) in Hs. cbn [bind] in Hs.
      fold (cols_of img lines) in Hs.
      destruct (resize img ((cols_of img lines * 2)%Z, (lines * 2)%Z)) as [la|e];
        [|discriminate].
      cbn [bind] in Hs.
      destruct (Z.eq_dec lines 0) as [Hl|Hl].
      { rewrite Hl in Hs at 2. rewrite truediv_zero in Hs. discriminate. }
      rewrite (truediv_ok _ Hl) in Hs. cbn [bind] in Hs.
      destruct (Z.eq_dec (cols_of img lines) 0) as [Hc|Hc].
      { rewrite Hc in Hs at 2. rewrite truediv_zero in Hs. discriminate. }
      repeat split; try assumption. exists la. reflexivity.
    + intros (Hh & Hl & Hc & la & Hr). eexists.
      apply image_to_blocks_ok with (la := la); assumption.
  - intros e He. unfold image_to_blocks in He. fold (cols_of img lines) in He.
    destruct (Z.eq_dec (height img) 0) as [Hh|Hh].
    { rewrite Hh, truediv_zero in He. inversion He. left. reflexivity. }
    rewrite (truediv_ok _ Hh) in He. cbn [bind] in He.
    fold (cols_of img lines) in He.
    destruct (resize img ((cols_of img lines * 2)%Z, (lines * 2)%Z)) as [la|e'].
    2:{ inversion He. right. reflexivity. }
    cbn [bind] in He.
    destruct (Z.eq_dec lines 0) as [Hl|Hl].
    { rewrite Hl in He at 2. rewrite truediv_zero in He. inversion He. left. reflexivity. }
    rewrite (truediv_ok _ Hl) in He. cbn [bind] in He.
    destruct (Z.eq_dec (cols_of img lines) 0) as [Hc|Hc].
    { rewrite Hc in He at 2. rewrite truediv_zero in He. inversion He. left. reflexivity. }
    rewrite (truediv_ok _ Hc) in He. discriminate.
Qed.





(** X13. With a line count that is not positive no glyph is produced: the
    call raises or returns the empty string. *)
Theorem image_to_blocks_no_lines (img : Image) (lines : Z)
  (contrast brightness : float) (Hlines : (lines <= 0)%Z) :
  image_to_blocks img lines contrast brightness = Ok [] \/
  exists e, image_to_blocks img lines contrast brightness = Raise e.
Proof.
  destruct (image_to_blocks_outcome img lines contrast brightness) as [Hiff _].
  destruct (image_to_blocks img lines contrast brightness) as [s|e] eqn:E.
  - left. destruct (proj1 Hiff (ex_intro _ s eq_refl)) as (Hh & Hl & Hc & la & Hr).
    rewrite (image_to_blocks_ok img contrast brightness Hh Hl Hc Hr) in E.
    rewrite <- E. unfold glyph_rows, range.
    replace (Z.to_nat lines) with 0%nat by lia. reflexivity.
  - right. exists e. reflexivity.
Qed.

Lemma image_to_blocks_no_lines_witness :
  image_to_blocks {| width := 4; height := 4; resize := fun _ => Ok [] |}
                  (-1) (Fin 1) (Fin 0) = Ok [] \/
  exists e,
    image_to_blocks {| width := 4; height := 4; resize := fun _ => Ok [] |}
                    (-1) (Fin 1) (Fin 0) = Raise e.
Proof.
  refine (@image_to_blocks_no_lines
            {| width := 4; height := 4; resize := fun _ => Ok [] |} (-1)
            (Fin 1) (Fin 0) _).
  vm_compute. discriminate.
Defined.






(** X16. With cells of two pixels on each axis, [sample_cell] on a cell
    inside the field returns the four pixels of the 2x2 block under the
    cell, one per quadrant. *)
Theorem sample_cell_pixel_block (arr : list (list Q)) (rows cols x y : Z) (cell_w cell_h : Q)
  (Hshape : has_shape arr rows cols) (Hw : cell_w == 2) (Hh : cell_h == 2)
  (Hx : (0 <= x)%Z) (Hx' : (2 * x + 1 < cols)%Z)
  (Hy : (0 <= y)%Z) (Hy' : (2 * y + 1 < rows)%Z) :
  exists s,
    sample_cell (map2d Fin arr) x y cell_w cell_h = np_array s /\
    quad_eq s (block 0 arr x y).
Proof.
  destruct (@sample_cell_two Q (fun v => v) 0 arr rows cols x y cell_w cell_h)
    as (s & Hs & Hq); try assumption.
  exists s. split; [exact Hs|].
  destruct Hq as (A & B & C & D). unfold quad_eq, block in *. simpl in *. tauto.
Qed.

Lemma sample_cell_pixel_block_witness :
  exists s,
    sample_cell (map2d Fin [[1; 0; 0.5; 0.25]; [0; 1; 0.75; 0]]) 1 0 2 2 = np_array s /\
    quad_eq s (Quad 0.5 0.25 0.75 0).
Proof.
  refine (@sample_cell_pixel_block [[1; 0; 0.5; 0.25]; [0; 1; 0.75; 0]] 2 4 1 0 2 2
            _ _ _ _ _ _ _).
  - split; [reflexivity|]. repeat constructor.
  - reflexivity.
  - reflexivity.
  - vm_compute. discriminate.
  - vm_compute. reflexivity.
  - vm_compute. discriminate.
  - vm_compute. reflexivity.
Defined.

(* ================================================================== *)
(** * Properties of the floating-point model *)

Lemma two_pos (e : Z) : 0 < 2 ^ e.
Proof. apply Qpower_0_lt. reflexivity. Qed.

Lemma two_pow_plus (a b : Z) : 2 ^ (a + b) == 2 ^ a * 2 ^ b.
Proof. apply Qpower_plus. discriminate. Qed.

Lemma two_pow_Z (n : Z) : (0 <= n)%Z -> 2 ^ n == inject_Z (2 ^ n).
Proof. intro H. rewrite Zpower_Qpower by exact H. reflexivity. Qed.

Lemma two_pow_lt_inv (a b : Z) : 2 ^ a < 2 ^ b -> (a < b)%Z.
Proof. intro H. apply (Qpower_lt_compat_l_inv 2); [exact H|reflexivity]. Qed.

Lemma two_pow_le (a b : Z) : (a <= b)%Z -> 2 ^ a <= 2 ^ b.
Proof. intro H. apply Qpower_le_compat_l; [exact H|discriminate]. Qed.

Lemma Qabs_num (q : Q) : Qabs q == inject_Z (Z.abs (Qnum q)) / inject_Z (Z.pos (Qden q)).
Proof.
  destruct q as [n d]. unfold Qabs, Qeq, Qdiv, Qmult, Qinv, inject_Z. simpl.
  lia.
Qed.

(** [ilog2 q] is a lower estimate of the binary logarithm. *)
Lemma ilog2_le (q : Q) : ~ q == 0 -> 2 ^ IEEE.ilog2 q <= Qabs q.
Proof.
  intro Hq. unfold IEEE.ilog2.
  set (n := Z.abs (Qnum q)). set (d := Z.pos (Qden q)).
  destruct (Qle_bool (2 ^ (Z.log2 n - Z.log2 d)) (Qabs q)) eqn:E.
  - apply Qle_bool_iff in E. exact E.
  - assert (0 < n)%Z as Hn.
    { unfold n. destruct q as [qn qd]. unfold Qeq in Hq. simpl in *. lia. }
    assert (0 < d)%Z as Hd by (unfold d; lia).
    destruct (Z.log2_spec n Hn) as [Hn1 _].
    destruct (Z.log2_spec d Hd) as [_ Hd2].
    pose proof (Z.log2_nonneg n) as Ha. pose proof (Z.log2_nonneg d) as Hb.
    set (a := Z.log2 n) in *. set (b := Z.log2 d) in *.
    rewrite Qabs_num. fold n d.
    assert (0 < inject_Z d) as Hdq.
    { change 0 with (inject_Z 0). rewrite <- Zlt_Qlt. exact Hd. }
    apply Qle_shift_div_l; [exact Hdq|].
    apply Qle_trans with (2 ^ (a - b - 1) * 2 ^ (Z.succ b)).
    + apply Qmult_le_l; [apply two_pos|].
      rewrite two_pow_Z by lia. rewrite <- Zle_Qle. lia.
    + rewrite <- two_pow_plus.
      replace (a - b - 1 + Z.succ b)%Z with a by lia.
      rewrite two_pow_Z by lia. rewrite <- Zle_Qle. exact Hn1.
Qed.

Lemma round_inject_Z (k : Z) : round (inject_Z k) = k.
Proof.
  unfold round. rewrite Qfloor_Z.
  assert (inject_Z k - inject_Z k == 0) as H by ring.
  rewrite (Qcompare_comp _ _ H _ _ (Qeq_refl 0.5)). reflexivity.
Qed.

Lemma round_proper (q r : Q) : q == r -> round q = round r.
Proof.
  intro H. unfold round.
  rewrite (Qfloor_comp _ _ H).
  assert (q - inject_Z (Qfloor r) == r - inject_Z (Qfloor r)) as H' by (rewrite H; reflexivity).
  rewrite (Qcompare_comp _ _ H' _ _ (Qeq_refl 0.5)). reflexivity.
Qed.

Lemma Qabs_scale (m e : Z) : Qabs (inject_Z m * 2 ^ e) == inject_Z (Z.abs m) * 2 ^ e.
Proof.
  rewrite Qabs_Qmult. rewrite (Qabs_pos (2 ^ e)) by (apply Qlt_le_weak, two_pos).
  apply Qmult_comp; [|reflexivity].
  destruct m; reflexivity.
Qed.

(** A number [m * 2 ^ e] whose mantissa and exponent fit the format is
    rounded to itself. *)
Lemma round_to_exact (p emax m e : Z) (q : Q) :
  m <> 0%Z -> (Z.abs m < 2 ^ p)%Z -> (0 <= p)%Z -> (3 - emax - p <= e)%Z ->
  inject_Z (Z.abs m) * 2 ^ e < 2 ^ emax ->
  q == inject_Z m * 2 ^ e ->
  IEEE.round_to p emax q = Fin (Qred q).
Proof.
  intros Hm Hmp Hp He Hmax Hq. unfold IEEE.round_to.
  assert (~ q == 0) as Hq0.
  { rewrite Hq. intro H. apply Qmult_integral in H. destruct H as [H|H].
    - unfold Qeq in H. simpl in H. lia.
    - pose proof (two_pos e). lra. }
  destruct (Qeq_bool q 0) eqn:E0; [apply Qeq_bool_iff in E0; contradiction|].
  assert (Qabs q == inject_Z (Z.abs m) * 2 ^ e) as Habs.
  { rewrite Hq. apply Qabs_scale. }
  assert (IEEE.ilog2 q < p + e)%Z as Hlog.
  { apply two_pow_lt_inv. apply Qle_lt_trans with (Qabs q); [apply ilog2_le; exact Hq0|].
    rewrite Habs, two_pow_plus. apply Qmult_lt_r; [apply two_pos|].
    rewrite two_pow_Z by exact Hp. rewrite <- Zlt_Qlt. exact Hmp. }
  set (ex := Z.max (IEEE.ilog2 q - p + 1) (3 - emax - p)).
  assert (ex <= e)%Z as Hex by (unfold ex; lia).
  assert (2 ^ e == 2 ^ ex * inject_Z (2 ^ (e - ex))) as Hsplit.
  { rewrite <- two_pow_Z by lia. rewrite <- two_pow_plus.
    replace (ex + (e - ex))%Z with e by lia. reflexivity. }
  assert (q / 2 ^ ex == inject_Z (m * 2 ^ (e - ex))) as Hquot.
  { rewrite Hq, Hsplit, inject_Z_mult. field.
    pose proof (two_pos ex). lra. }
  rewrite (round_proper Hquot), round_inject_Z.
  assert (inject_Z (m * 2 ^ (e - ex)) * 2 ^ ex == q) as Hr.
  { rewrite Hq, Hsplit, inject_Z_mult. ring. }
  destruct (Qle_bool (2 ^ emax) (Qabs (inject_Z (m * 2 ^ (e - ex)) * 2 ^ ex))) eqn:Eo.
  - apply Qle_bool_iff in Eo. rewrite Hr, Habs in Eo. lra.
  - f_equal. apply Qred_complete. exact Hr.
Qed.

Lemma Qred_inject_Z (q : Q) (k : Z) : q == inject_Z k -> Qred q = inject_Z k.
Proof.
  intro H. rewrite (Qred_complete _ _ H). unfold inject_Z.
  apply Qcanon.Qred_identity. simpl. apply Z.gcd_1_r.
Qed.

Lemma Qred_Qred (q : Q) : Qred (Qred q) = Qred q.
Proof. apply Qred_complete. apply Qred_correct. Qed.

Lemma two_pow_53 : 2 ^ 1024 == inject_Z (2 ^ 1024).
Proof. apply two_pow_Z. lia. Qed.

(** Integers below [2 ^ 53] are numbers of binary64. *)
Lemma f64_int (q : Q) (k : Z) :
  q == inject_Z k -> (Z.abs k < 2 ^ 53)%Z -> IEEE.f64 (Fin q) = Fin (inject_Z k).
Proof.
  intros Hq Hk. unfold IEEE.f64, IEEE.rnd. rewrite (Qred_inject_Z Hq).
  destruct (Z.eq_dec k 0) as [->|Hk0]; [reflexivity|].
  rewrite (@round_to_exact 53 1024 k 0 (inject_Z k)); try lia.
  - f_equal. apply Qred_inject_Z. reflexivity.
  - rewrite two_pow_53. change (2 ^ 0) with 1. rewrite Qmult_1_r.
    rewrite <- Zlt_Qlt.
    apply Z.lt_trans with (2 ^ 53)%Z; [exact Hk|]. apply Z.pow_lt_mono_r; lia.
  - change (2 ^ 0) with 1. ring.
Qed.

(** Half-integers [k / 2] with [k] below [2 ^ 53] are numbers of binary64. *)
Lemma f64_half (q : Q) (k : Z) :
  q == inject_Z k / 2 -> (Z.abs k < 2 ^ 53)%Z -> IEEE.f64 (Fin q) = Fin (Qred q).
Proof.
  intros Hq Hk. unfold IEEE.f64, IEEE.rnd.
  destruct (Z.eq_dec k 0) as [->|Hk0].
  { assert (q == 0) as H0 by (rewrite Hq; reflexivity).
    rewrite (Qred_complete _ _ H0). reflexivity. }
  rewrite (@round_to_exact 53 1024 k (-1) (Qred q)); try lia.
  - rewrite Qred_Qred. reflexivity.
  - rewrite two_pow_53.
    apply Qle_lt_trans with (inject_Z (Z.abs k)).
    + change (2 ^ (-1)) with (1 # 2).
      assert (0 <= inject_Z (Z.abs k)) as H.
      { change 0 with (inject_Z 0). rewrite <- Zle_Qle. lia. }
      lra.
    + rewrite <- Zlt_Qlt.
      apply Z.lt_trans with (2 ^ 53)%Z; [exact Hk|]. apply Z.pow_lt_mono_r; lia.
  - rewrite Qred_correct, Hq. change (2 ^ (-1)) with (1 # 2). field.
Qed.

Lemma of_int_exact (i : Z) :
  (Z.abs i < 2 ^ 53)%Z -> IEEE.of_int i = Ok (Fin (inject_Z i)).
Proof.
  intro H. unfold IEEE.of_int. rewrite (@f64_int (inject_Z i) i); [reflexivity| |exact H].
  reflexivity.
Qed.

(** With a cell size of exactly 2.0 the boundaries of cell [i] are [2i],
    [2i + 1] and [2i + 2]. *)
Lemma cell_bounds_two (i : Z) :
  (0 <= i)%Z -> (i + 1 < 2 ^ 52)%Z ->
  IEEE.cell_bounds i (Fin 2) = Ok ((2 * i)%Z, (2 * i + 1)%Z, (2 * i + 2)%Z).
Proof.
  intros H0 H1.
  assert (2 ^ 53 = 2 * 2 ^ 52)%Z as E by reflexivity.
  unfold IEEE.cell_bounds.
  rewrite of_int_exact by lia. cbn [bind].
  unfold IEEE.mul64, IEEE.add64. cbn [fmul fadd].
  rewrite (@f64_int (inject_Z i * 2) (2 * i)); [|rewrite inject_Z_mult; ring|lia].
  cbn [IEEE.int bind]. rewrite int_inject_Z.
  rewrite (@f64_half (inject_Z i + 0.5) (2 * i + 1));
    [|rewrite inject_Z_plus, inject_Z_mult; field|lia].
  cbn [fmul].
  rewrite (@f64_int (Qred (inject_Z i + 0.5) * 2) (2 * i + 1));
    [|rewrite Qred_correct, inject_Z_plus, inject_Z_mult; ring|lia].
  cbn [IEEE.int bind]. rewrite int_inject_Z.
  rewrite of_int_exact by lia. cbn [bind fmul].
  rewrite (@f64_int (inject_Z (i + 1) * 2) (2 * i + 2));
    [|rewrite !inject_Z_plus, inject_Z_mult; ring|lia].
  cbn [IEEE.int bind]. rewrite int_inject_Z. reflexivity.
Qed.

Lemma ieee_truediv_two (n : Z) : n <> 0%Z -> IEEE.truediv (n * 2) n = Ok (Fin 2).
Proof.
  intro H. unfold IEEE.truediv.
  destruct (n =? 0)%Z eqn:E; [apply Z.eqb_eq in E; contradiction|].
  unfold IEEE.f64, IEEE.rnd.
  rewrite (@Qred_inject_Z (inject_Z (n * 2) / inject_Z n) 2).
  - reflexivity.
  - rewrite cell_size_two by exact H. reflexivity.
Qed.

Lemma for_each_ok (A B : Type) (f : A -> result B) (g : A -> B) (l : list A) :
  (forall a, In a l -> f a = Ok (g a)) -> IEEE.for_each f l = Ok (map g l).
Proof.
  induction l as [|a l IH]; intro H; simpl.
  - reflexivity.
  - rewrite H by (left; reflexivity). cbn [bind].
    rewrite IH by (intros a' Ha'; apply H; right; exact Ha'). reflexivity.
Qed.

Lemma ieee_sample_cell_two (a : ndarray) (x y : Z) :
  (0 <= x)%Z -> (x + 1 < 2 ^ 52)%Z -> (0 <= y)%Z -> (y + 1 < 2 ^ 52)%Z ->
  IEEE.sample_cell a x y (Fin 2) (Fin 2) = Ok (sample_two a x y).
Proof.
  intros Hx Hx' Hy Hy'. unfold IEEE.sample_cell.
  rewrite !cell_bounds_two by lia. reflexivity.
Qed.

(** When the column count is computed and positive, sizes stay below
    [2 ^ 52] and the resize succeeds, the function returns the joined
    grid. *)
Lemma ieee_image_to_blocks_ok (img : Image) (lines cols : Z)
  (contrast brightness : float) (la : list (list (Z * Z))) :
  IEEE.cols_of img lines = Ok cols ->
  (0 < lines < 2 ^ 52)%Z -> (0 < cols < 2 ^ 52)%Z ->
  resize img ((cols * 2)%Z, (lines * 2)%Z) = Ok la ->
  IEEE.image_to_blocks img lines contrast brightness =
    Ok (join [newline]
          (map (fun y =>
                  map (fun x =>
                         IEEE.best_fit_quadrant
                           (sample_two (IEEE.brightness_field la contrast brightness) x y))
                      (range cols))
               (range lines))).
Proof.
  intros Hc Hl Hcols Hr. unfold IEEE.image_to_blocks.
  rewrite Hc. cbn [bind]. rewrite Hr. cbn [bind].
  rewrite !ieee_truediv_two by lia. cbn [bind].
  rewrite (@for_each_ok _ _ _
             (fun y => map (fun x => IEEE.best_fit_quadrant
                                       (sample_two (IEEE.brightness_field la contrast brightness) x y))
                           (range cols))).
  - reflexivity.
  - intros y Hy. apply In_range in Hy.
    apply for_each_ok. intros x Hx. apply In_range in Hx.
    rewrite ieee_sample_cell_two by lia. reflexivity.
Qed.

(** ** Rounding: distance, sign and size of the result *)

Lemma round_near (t : Q) :
  inject_Z (round t) - t <= 1 # 2 /\ t - inject_Z (round t) <= 1 # 2.
Proof.
  unfold round.
  pose proof (Qfloor_le t) as H1. pose proof (Qlt_floor t) as H2.
  rewrite inject_Z_plus in H2. change (inject_Z 1) with 1 in H2.
  set (f := Qfloor t) in *.
  assert (0.5 == 1 # 2) as Eh by reflexivity.
  destruct (t - inject_Z f ?= 0.5) eqn:E.
  - apply Qeq_alt in E.
    destruct (Z.even f); [|rewrite inject_Z_plus; change (inject_Z 1) with 1]; lra.
  - apply Qlt_alt in E. lra.
  - apply Qgt_alt in E. rewrite inject_Z_plus. change (inject_Z 1) with 1. lra.
Qed.

Lemma round_nonneg (t : Q) : 0 <= t -> (0 <= round t)%Z.
Proof.
  intro H. unfold round.
  assert (0 <= Qfloor t)%Z as Hf.
  { change 0%Z with (Qfloor 0). apply Qfloor_resp_le. exact H. }
  destruct (t - inject_Z (Qfloor t) ?= 0.5); [destruct (Z.even (Qfloor t))| |]; lia.
Qed.

Lemma round_to_not_nan (p emax : Z) (q : Q) : IEEE.round_to p emax q <> NaN.
Proof.
  unfold IEEE.round_to.
  destruct (Qeq_bool q 0); [discriminate|].
  match goal with |- context [Qle_bool ?a ?b] => destruct (Qle_bool a b) end;
    [destruct (Qle_bool 0 q)|]; discriminate.
Qed.

Lemma rnd_not_nan (p emax : Z) (x : float) : x <> NaN -> IEEE.rnd p emax x <> NaN.
Proof.
  destruct x; simpl; intro H; try exact H. apply round_to_not_nan.
Qed.

Lemma rnd_nan (p emax : Z) : IEEE.rnd p emax NaN = NaN.
Proof. reflexivity. Qed.

(** A value that is not negative is rounded to one, or to [+inf]. *)
Lemma round_to_nonneg (p emax : Z) (q : Q) : 0 <= q -> nonneg (IEEE.round_to p emax q).
Proof.
  intro H. unfold IEEE.round_to.
  destruct (Qeq_bool q 0).
  { right. exists 0. split; [reflexivity|apply Qle_refl]. }
  set (ex := Z.max (IEEE.ilog2 q - p + 1) (3 - emax - p)).
  match goal with |- context [Qle_bool ?a ?b] => destruct (Qle_bool a b) end.
  - destruct (Qle_bool 0 q) eqn:E; [left; reflexivity|].
    apply Qle_bool_iff in H. congruence.
  - right. eexists. split; [reflexivity|].
    rewrite Qred_correct.
    apply Qmult_le_0_compat; [|apply Qlt_le_weak, two_pos].
    apply inject_Z_nonneg. apply round_nonneg.
    apply Qle_shift_div_l; [apply two_pos|]. lra.
Qed.

Lemma rnd_nonneg (p emax : Z) (x : float) : nonneg x -> nonneg (IEEE.rnd p emax x).
Proof.
  intros [ -> | (v & -> & Hv) ]; simpl.
  - left. reflexivity.
  - apply round_to_nonneg. rewrite Qred_correct. exact Hv.
Qed.

(** A value between 0 and [2 ^ k], with [k] below the largest exponent, is
    rounded to a finite number, between 0 and [2 ^ (k + 1)]. *)
Lemma round_to_bounded (p emax k : Z) (q : Q) :
  (1 <= p)%Z -> (3 - emax - p <= 0)%Z -> (0 <= k)%Z -> (k < emax)%Z ->
  0 <= q -> q <= 2 ^ k ->
  exists r, IEEE.round_to p emax q = Fin r /\ 0 <= r /\ r <= 2 ^ (k + 1).
Proof.
  intros Hp Hmin Hk Hke Hq0 Hqk. unfold IEEE.round_to.
  destruct (Qeq_bool q 0) eqn:E0.
  { exists 0. split; [reflexivity|]. split; [apply Qle_refl|].
    apply Qlt_le_weak, two_pos. }
  assert (~ q == 0) as Hne.
  { intro H. apply Qeq_bool_iff in H. congruence. }
  assert (IEEE.ilog2 q <= k)%Z as Hlog.
  { destruct (Z.le_gt_cases (IEEE.ilog2 q) k) as [H|H]; [exact H|exfalso].
    pose proof (ilog2_le Hne) as H1. rewrite Qabs_pos in H1 by exact Hq0.
    assert (2 ^ k < 2 ^ IEEE.ilog2 q) as H2.
    { apply Qpower_lt_compat_l; [lia|reflexivity]. }
    lra. }
  set (ex := Z.max (IEEE.ilog2 q - p + 1) (3 - emax - p)).
  assert (ex <= k)%Z as Hex by (unfold ex; lia).
  set (n := round (q / 2 ^ ex)).
  assert (0 <= inject_Z n) as Hn.
  { apply inject_Z_nonneg. apply round_nonneg.
    apply Qle_shift_div_l; [apply two_pos|]. lra. }
  pose proof (two_pos ex) as Hex0.
  assert (inject_Z n * 2 ^ ex <= q + (1 # 2) * 2 ^ ex) as Hnear.
  { destruct (round_near (q / 2 ^ ex)) as [H1 _]. fold n in H1.
    assert (inject_Z n <= q / 2 ^ ex + (1 # 2)) as H3 by lra.
    apply Qle_trans with ((q / 2 ^ ex + (1 # 2)) * 2 ^ ex).
    - apply Qmult_le_compat_r; [exact H3|lra].
    - assert ((q / 2 ^ ex + (1 # 2)) * 2 ^ ex == q + (1 # 2) * 2 ^ ex) as H4
        by (field; lra).
      rewrite H4. apply Qle_refl. }
  assert (2 ^ ex <= 2 ^ k) as Hexk by (apply two_pow_le; exact Hex).
  assert (2 ^ (k + 1) == 2 * 2 ^ k) as Hk1.
  { rewrite two_pow_plus. change (2 ^ 1) with 2. ring. }
  pose proof (two_pos k) as Hk0.
  assert (0 <= inject_Z n * 2 ^ ex) as Hr0.
  { apply Qmult_le_0_compat; lra. }
  assert (inject_Z n * 2 ^ ex < 2 ^ (k + 1)) as Hlt by lra.
  assert (2 ^ (k + 1) <= 2 ^ emax) as Hmax by (apply two_pow_le; lia).
  destruct (Qle_bool (2 ^ emax) (Qabs (inject_Z n * 2 ^ ex))) eqn:Eo.
  - apply Qle_bool_iff in Eo. rewrite Qabs_pos in Eo by exact Hr0. lra.
  - eexists. split; [reflexivity|]. rewrite Qred_correct. split; lra.
Qed.

Lemma f64_bounded (k : Z) (q : Q) :
  (0 <= k)%Z -> (k < 1024)%Z -> 0 <= q -> q <= 2 ^ k ->
  exists r, IEEE.f64 (Fin q) = Fin r /\ 0 <= r /\ r <= 2 ^ (k + 1).
Proof.
  intros Hk Hk' H0 H1. unfold IEEE.f64, IEEE.rnd.
  apply round_to_bounded; try lia; rewrite Qred_correct; assumption.
Qed.

(** ** The pattern matcher in float32 *)

Lemma add32_nan_r (x : float) : IEEE.add32 x NaN = NaN.
Proof. destruct x; reflexivity. Qed.

Lemma add32_nan_l (x : float) : IEEE.add32 NaN x = NaN.
Proof. reflexivity. Qed.

Lemma add32_nonneg (a b : float) : nonneg a -> nonneg b -> nonneg (IEEE.add32 a b).
Proof.
  intros Ha Hb. unfold IEEE.add32, IEEE.f32. apply rnd_nonneg.
  destruct Ha as [ -> | (u & -> & Hu) ]; destruct Hb as [ -> | (v & -> & Hv) ]; simpl.
  - left. reflexivity.
  - left. reflexivity.
  - left. reflexivity.
  - right. exists (u + v). split; [reflexivity|lra].
Qed.

Lemma mul32_square (x : float) : x <> NaN -> nonneg (IEEE.mul32 x x).
Proof.
  intro H. unfold IEEE.mul32, IEEE.f32. apply rnd_nonneg.
  destruct x as [q| | |]; simpl.
  - right. exists (q * q). split; [reflexivity|]. nra.
  - left. reflexivity.
  - left. reflexivity.
  - contradiction.
Qed.

Lemma sub32_not_nan (a : float) (b : Q) : a <> NaN -> IEEE.sub32 a (Fin b) <> NaN.
Proof.
  intro H. unfold IEEE.sub32, IEEE.f32. apply rnd_not_nan.
  destruct a; simpl; try discriminate. contradiction.
Qed.

(** The patterns of the palette hold finite values. *)
Lemma ieee_patterns_finite :
  IEEE.PATTERNS = to_arrays (map (fun cp => (fst cp, quad_map Qred (snd cp))) ALL_PATTERNS).
Proof. vm_compute. reflexivity. Qed.

Lemma ieee_pattern_finite (j : nat) (g : char) (p : quad float) :
  nth_error IEEE.PATTERNS j = Some (g, p) -> exists pq, p = np_array pq.
Proof.
  rewrite ieee_patterns_finite. unfold to_arrays. intro H.
  rewrite nth_error_map in H.
  destruct (nth_error _ j) as [[g' pq]|]; [|discriminate].
  simpl in H. inversion H. exists pq. reflexivity.
Qed.

(** Without a [nan] in the sample, a distance is [+inf] or a finite number
    that is not negative. *)
Lemma ieee_sq_dist_nonneg (q : quad float) (pq : quad Q) :
  tl q <> NaN -> tr q <> NaN -> bl q <> NaN -> br q <> NaN ->
  nonneg (IEEE.sq_dist q (np_array pq)).
Proof.
  intros Ha Hb Hc Hd. destruct q as [a b c d]. destruct pq as [pa pb pc pd].
  simpl in *. unfold IEEE.sq_dist, IEEE.quad_sum. simpl.
  repeat apply add32_nonneg.
  - right. exists 0. split; [reflexivity|apply Qle_refl].
  - apply mul32_square. apply sub32_not_nan. exact Ha.
  - apply mul32_square. apply sub32_not_nan. exact Hb.
  - apply mul32_square. apply sub32_not_nan. exact Hc.
  - apply mul32_square. apply sub32_not_nan. exact Hd.
Qed.

(** A [nan] in the sample makes every distance [nan]. *)
Lemma ieee_sq_dist_nan (q p : quad float) :
  tl q = NaN \/ tr q = NaN \/ bl q = NaN \/ br q = NaN -> IEEE.sq_dist q p = NaN.
Proof.
  destruct q as [a b c d]. simpl. unfold IEEE.sq_dist, IEEE.quad_sum. simpl.
  intros [ -> | [ -> | [ -> | -> ] ] ];
    change (IEEE.sub32 NaN ?x) with NaN; change (IEEE.mul32 NaN NaN) with NaN;
    rewrite ?add32_nan_r, ?add32_nan_l; reflexivity.
Qed.

Lemma ieee_scan_nan (q : quad float) (l : list (char * quad float)) (st : float * char) :
  (forall p, IEEE.sq_dist q p = NaN) -> fold_left (IEEE.best_fit_step q) l st = st.
Proof.
  intro H. revert st. induction l as [|entry l IH]; intro st; simpl.
  - reflexivity.
  - unfold IEEE.best_fit_step at 2. rewrite H. cbn [fltb]. apply IH.
Qed.

Lemma fltb_irrefl (a : float) : fltb a a = false.
Proof.
  destruct a as [q| | |]; simpl; try reflexivity.
  apply Qltb_false. apply Qle_refl.
Qed.

Lemma fltb_asym (a b : float) : fltb a b = true -> fltb b a = false.
Proof.
  destruct a as [x| | |]; destruct b as [y| | |]; simpl; try discriminate; try reflexivity.
  intro H. apply Qltb_true in H. apply Qltb_false. lra.
Qed.

(** [a < b <= c] gives [a < c]. *)
Lemma fltb_lt_le (a b c : float) :
  nonneg a -> nonneg b -> nonneg c ->
  fltb a b = true -> fltb c b = false -> fltb a c = true.
Proof.
  intros [ -> | (x & -> & _) ] [ -> | (y & -> & _) ] [ -> | (z & -> & _) ];
    simpl; try discriminate; try reflexivity.
  intros H1 H2. apply Qltb_true in H1. apply Qltb_false in H2.
  apply Qltb_true. lra.
Qed.

(** [a <= b <= c] gives [a <= c]. *)
Lemma fltb_le_le (a b c : float) :
  nonneg a -> nonneg b -> nonneg c ->
  fltb b a = false -> fltb c b = false -> fltb c a = false.
Proof.
  intros [ -> | (x & -> & _) ] [ -> | (y & -> & _) ] [ -> | (z & -> & _) ];
    simpl; try discriminate; try reflexivity.
  intros H1 H2. apply Qltb_false in H1. apply Qltb_false in H2.
  apply Qltb_false. lra.
Qed.

Section IeeeScan.

Variable q : quad float.

Lemma ieee_scan_first_least (l : list (char * quad float)) :
  (forall j g p, nth_error l j = Some (g, p) -> nonneg (IEEE.sq_dist q p)) ->
  scanned q l (fold_left (IEEE.best_fit_step q) l (PInf, " ")).
Proof.
  induction l as [|entry l IH] using rev_ind; intro Hnn.
  - simpl. split; [left; reflexivity|]. split.
    + intros j g' p' H. destruct j; discriminate.
    + left. split; reflexivity.
  - rewrite fold_left_app. cbn [fold_left].
    assert (forall j g p, nth_error l j = Some (g, p) -> nonneg (IEEE.sq_dist q p)) as Hnn'.
    { intros j g p H. apply (Hnn j g p).
      rewrite nth_error_app1; [exact H|]. apply nth_error_Some. congruence. }
    specialize (IH Hnn').
    set (st := fold_left (IEEE.best_fit_step q) l (PInf, " ")) in *.
    destruct IH as (Hst & Hall & Hbest).
    destruct entry as [g p].
    assert (nonneg (IEEE.sq_dist q p)) as Hd.
    { apply (Hnn (List.length l) g p). rewrite nth_error_app2 by lia.
      rewrite Nat.sub_diag. reflexivity. }
    assert (forall j g' p', nth_error (l ++ [(g, p)]) j = Some (g', p') ->
              ((j < List.length l)%nat /\ nth_error l j = Some (g', p')) \/
              (j = List.length l /\ g' = g /\ p' = p)) as Hcase.
    { intros j g' p' H. destruct (Nat.lt_ge_cases j (List.length l)) as [Hj|Hj].
      - left. split; [exact Hj|]. rewrite nth_error_app1 in H by exact Hj. exact H.
      - right. rewrite nth_error_app2 in H by exact Hj.
        destruct (j - List.length l)%nat as [|k] eqn:Ek.
        + simpl in H. inversion H. repeat split; lia.
        + simpl in H. destruct k; discriminate. }
    unfold IEEE.best_fit_step. cbn [fst snd].
    destruct (fltb (IEEE.sq_dist q p) (fst st)) eqn:E.
    + (* the entry is nearer: it becomes the candidate *)
      cbn [fst snd]. split; [exact Hd|]. split.
      * intros j g' p' H. destruct (Hcase j g' p' H) as [[Hj H']|(_ & _ & ->)].
        -- apply fltb_asym.
           apply fltb_lt_le with (b := fst st); try assumption.
           ++ exact (Hnn' j g' p' H').
           ++ exact (Hall j g' p' H').
        -- apply fltb_irrefl.
      * right. exists (List.length l), p. split.
        { rewrite nth_error_app2 by lia. rewrite Nat.sub_diag. reflexivity. }
        split; [reflexivity|].
        intros j g' p' H Hj.
        destruct (Hcase j g' p' H) as [[_ H']|(Hj' & _)]; [|lia].
        apply fltb_lt_le with (b := fst st); try assumption.
        -- exact (Hnn' j g' p' H').
        -- exact (Hall j g' p' H').
    + (* the candidate stays *)
      split; [exact Hst|]. split.
      * intros j g' p' H. destruct (Hcase j g' p' H) as [[Hj H']|(_ & _ & ->)].
        -- exact (Hall j g' p' H').
        -- exact E.
      * destruct Hbest as [Hinit|(i & p0 & Hi & Hmin & Hfirst)]; [left; exact Hinit|].
        right. exists i, p0. split.
        { rewrite nth_error_app1; [exact Hi|]. apply nth_error_Some. congruence. }
        split; [exact Hmin|].
        intros j g' p' H Hj.
        destruct (Hcase j g' p' H) as [[_ H']|(Hj' & _)].
        -- exact (Hfirst j g' p' H' Hj).
        -- assert (i < List.length l)%nat; [|lia].
           apply nth_error_Some. congruence.
Qed.

End IeeeScan.

Lemma has_nan_dec (q : quad float) :
  (tl q = NaN \/ tr q = NaN \/ bl q = NaN \/ br q = NaN) \/
  (tl q <> NaN /\ tr q <> NaN /\ bl q <> NaN /\ br q <> NaN).
Proof.
  destruct q as [a b c d]. simpl.
  destruct a; try (left; tauto); destruct b; try (left; tauto);
    destruct c; try (left; tauto); destruct d; try (left; tauto);
    right; repeat split; discriminate.
Qed.

Lemma ieee_best_fit_least (q : quad float) :
  exists i p, first_least q IEEE.PATTERNS i (IEEE.best_fit_quadrant q) p.
Proof.
  destruct (has_nan_dec q) as [Hnan|(Ha & Hb & Hc & Hd)].
  - (* every distance is nan: nothing compares below, the space is kept *)
    exists 0%nat. eexists. unfold IEEE.best_fit_quadrant.
    rewrite ieee_scan_nan by (intro p; apply ieee_sq_dist_nan; exact Hnan).
    split; [reflexivity|].
    intros j g' p' _. rewrite !(@ieee_sq_dist_nan q _ Hnan). split; [reflexivity|lia].
  - assert (forall j g p, nth_error IEEE.PATTERNS j = Some (g, p) ->
              nonneg (IEEE.sq_dist q p)) as Hnn.
    { intros j g p H. destruct (ieee_pattern_finite _ H) as [pq ->].
      apply ieee_sq_dist_nonneg; assumption. }
    destruct (ieee_scan_first_least q IEEE.PATTERNS Hnn) as (Hst & Hall & Hbest).
    set (st := fold_left (IEEE.best_fit_step q) IEEE.PATTERNS (PInf, " ")) in *.
    destruct Hbest as [[Hinf Hsp]|(i & p & Hi & Hmin & Hfirst)].
    + (* no distance is finite: the space, first of the palette, is kept *)
      assert (exists p0, nth_error IEEE.PATTERNS 0 = Some (" ", p0)) as [p0 Hp0]
        by (eexists; reflexivity).
      exists 0%nat, p0. unfold IEEE.best_fit_quadrant. fold st. rewrite Hsp.
      split; [exact Hp0|].
      intros j g' p' H.
      assert (IEEE.sq_dist q p0 = PInf) as H0.
      { pose proof (Hall 0%nat _ _ Hp0) as H1. rewrite Hinf in H1.
        destruct (Hnn 0%nat _ _ Hp0) as [H2|(v & H2 & _)]; [exact H2|].
        rewrite H2 in H1. discriminate. }
      rewrite H0. split; [|lia].
      rewrite <- Hinf. exact (Hall j g' p' H).
    + exists i, p. unfold IEEE.best_fit_quadrant. fold st. split; [exact Hi|].
      intros j g' p' H. split.
      * rewrite <- Hmin. exact (Hall j g' p' H).
      * intro Hj. exact (Hfirst j g' p' H Hj).
Qed.

(** C4, as stated, fails: the loop compares the distances it computes, sums
    of [float32] squares, and two entries at the same exact distance of a
    sample need not get the same computed distance.  The sample of the
    normalised bytes 192, 0, 68, 124 is exactly as far from the pattern of
    "▘" as from that of "▒", and "▘" comes first in the palette; the
    computed distance to "▒" is the smaller one, and "▒" is returned. *)
Lemma ieee_best_fit_not_first_nearest :
  let q := quad_map IEEE.byte_to_unit (Quad 192 0 68 124)%Z in
  IEEE.best_fit_quadrant q = "▒" /\
  (exists i p, first_minimum (quad_map val q) ALL_PATTERNS i "▘" p) /\
  sq_distance (quad_map val q) (Quad 1 0 0 0) ==
    sq_distance (quad_map val q) (Quad 0.5 0.5 0.5 0.5) /\
  fltb (IEEE.sq_dist q (np_array (Quad 0.5 0.5 0.5 0.5)))
       (IEEE.sq_dist q (np_array (Quad 1 0 0 0))) = true.
Proof.
  split; [vm_compute; reflexivity|]. split; [|split; vm_compute; reflexivity].
  destruct (best_fit_first_minimum
              (quad_map val (quad_map IEEE.byte_to_unit (Quad 192 0 68 124)%Z)))
    as (i & p & H).
  exists i, p.
  replace "▘" with
    (best_fit_quadrant
       (np_array (quad_map val (quad_map IEEE.byte_to_unit (Quad 192 0 68 124)%Z))))
    by (vm_compute; reflexivity).
  exact H.
Qed.

(** C4, amended.  For every 2x2 sample, finite or not, [best_fit_quadrant]
    returns the glyph of a palette entry below whose distance, as computed
    in [float32] (each difference, each square and each partial sum rounded),
    the distance of no entry compares, and it is the first such entry in
    the order of the palette: every entry before it has a computed distance
    that is strictly greater. *)
Theorem ieee_best_fit_first_least (q : quad float) :
  exists i p, first_least q IEEE.PATTERNS i (IEEE.best_fit_quadrant q) p.
Proof. apply ieee_best_fit_least. Qed.

(** ** The pipeline in floating point *)

Lemma ieee_scan_candidate (q : quad float) (l : list (char * quad float))
  (st : float * char) :
  snd (fold_left (IEEE.best_fit_step q) l st) = snd st \/
  In (snd (fold_left (IEEE.best_fit_step q) l st)) (map fst l).
Proof.
  revert st. induction l as [|entry l IH]; intro st; simpl.
  - left. reflexivity.
  - destruct (IH (IEEE.best_fit_step q st entry)) as [H|H].
    + rewrite H. unfold IEEE.best_fit_step.
      destruct (fltb (IEEE.sq_dist q (snd entry)) (fst st)); simpl; auto.
    + right. right. exact H.
Qed.

Lemma ieee_newline_not_glyph (q : quad float) : IEEE.best_fit_quadrant q <> newline.
Proof.
  unfold IEEE.best_fit_quadrant.
  destruct (ieee_scan_candidate q IEEE.PATTERNS (PInf, " ")) as [H|H].
  - rewrite H. discriminate.
  - intro E. rewrite E in H. simpl in H.
    repeat (destruct H as [H|H]; [discriminate H|]).
    contradiction.
Qed.

(** The rows of glyphs of the two loops, at two pixels per cell. *)
Lemma ieee_rows_shape (a : ndarray) (lines cols : Z) :
  let rows :=
    map (fun y => map (fun x => IEEE.best_fit_quadrant (sample_two a x y)) (range cols))
        (range lines) in
  List.length rows = Z.to_nat lines /\
  Forall (fun row => List.length row = Z.to_nat cols /\ ~ In newline row) rows.
Proof.
  simpl. split.
  - rewrite length_map. apply range_length.
  - apply Forall_map. apply Forall_forall. intros y _. split.
    + rewrite length_map. apply range_length.
    + intro Hin. apply in_map_iff in Hin. destruct Hin as (x & Hx & _).
      exact (ieee_newline_not_glyph _ Hx).
Qed.

Lemma ieee_shape (img : Image) (lines cols : Z) (contrast brightness : float)
  (la : list (list (Z * Z))) :
  IEEE.cols_of img lines = Ok cols ->
  (0 < lines < 2 ^ 52)%Z -> (0 < cols < 2 ^ 52)%Z ->
  resize img ((cols * 2)%Z, (lines * 2)%Z) = Ok la ->
  exists s,
    IEEE.image_to_blocks img lines contrast brightness = Ok s /\
    Z.of_nat (List.length (split_on newline s)) = lines /\
    Forall (fun row => Z.of_nat (List.length row) = cols) (split_on newline s).
Proof.
  intros Hc Hl Hcols Hr. eexists. split.
  - apply ieee_image_to_blocks_ok with (la := la) (cols := cols); assumption.
  - match goal with |- context [join _ ?r] => set (rows := r) end.
    assert (List.length rows = Z.to_nat lines) as Hlen
      by exact (proj1 (ieee_rows_shape _ lines cols)).
    assert (Forall (fun row => List.length row = Z.to_nat cols /\ ~ In newline row) rows)
      as Hrows by exact (proj2 (ieee_rows_shape _ lines cols)).
    destruct Hl as [Hl _]. destruct Hcols as [Hcols _].
    rewrite split_join.
    + unfold str in *. split; [rewrite Hlen; lia|].
      eapply Forall_impl; [|exact Hrows].
      intros row [Hrow _]. rewrite Hrow. lia.
    + intro E. rewrite E in Hlen. simpl in Hlen. lia.
    + eapply Forall_impl; [|exact Hrows]. intros row [_ Hnl]. exact Hnl.
Qed.

(** C1, as stated, fails: the column count is truncated, not rounded.  For
    an image of 7 by 8 pixels and one line, [1 * (7 / 8) * 2] is 1.75 in
    [float64], which rounds to 2, and the row that is returned has one
    character. *)
Lemma ieee_columns_truncated :
  IEEE.image_to_blocks (solid_image 7 8 255 255) 1 (Fin 1) (Fin 0) = Ok ["█"] /\
  map (fun row => Z.of_nat (List.length row)) (split_on newline ["█"]) = [1%Z] /\
  IEEE.mul64 (IEEE.mul64 (Fin 1) (IEEE.f64 (Fin (7 # 8)))) (Fin 2) = Fin (7 # 4) /\
  round (7 # 4) = 2%Z.
Proof. vm_compute. repeat split. Qed.

(** C1, amended.  The column count is
    [int(lines * (width / height) * 2)], computed in [float64] and truncated
    toward zero.  For every image and every line count for which that count
    is computed and positive, lines and columns being fewer than [2 ^ 52],
    and for which the resize succeeds, the function returns exactly [lines]
    text rows, each of that many characters. *)
Theorem ieee_image_to_blocks_shape (img : Image) (lines cols : Z)
  (contrast brightness : float) (la : list (list (Z * Z)))
  (Hcols : IEEE.cols_of img lines = Ok cols)
  (Hlines : (0 < lines < 2 ^ 52)%Z) (Hpos : (0 < cols < 2 ^ 52)%Z)
  (Hresize : resize img ((cols * 2)%Z, (lines * 2)%Z) = Ok la) :
  exists s,
    IEEE.image_to_blocks img lines contrast brightness = Ok s /\
    Z.of_nat (List.length (split_on newline s)) = lines /\
    Forall (fun row => Z.of_nat (List.length row) = cols) (split_on newline s).
Proof. apply ieee_shape with (la := la); assumption. Qed.

Lemma ieee_image_to_blocks_shape_witness :
  exists s,
    IEEE.image_to_blocks (solid_image 339 300 255 255) 50 (Fin 1) (Fin 0) = Ok s /\
    Z.of_nat (List.length (split_on newline s)) = 50%Z /\
    Forall (fun row => Z.of_nat (List.length row) = 112%Z) (split_on newline s).
Proof.
  refine (@ieee_image_to_blocks_shape (solid_image 339 300 255 255) 50 112 (Fin 1) (Fin 0)
            (repeat (repeat (255, 255)%Z 224) 100) _ _ _ _).
  - vm_compute. reflexivity.
  - vm_compute. split; reflexivity.
  - vm_compute. split; reflexivity.
  - vm_compute. reflexivity.
Defined.

(** ** Transparent images *)

Lemma round_to_cases (p emax : Z) (q : Q) :
  (exists r, IEEE.round_to p emax q = Fin r) \/
  IEEE.round_to p emax q = PInf \/ IEEE.round_to p emax q = NInf.
Proof.
  unfold IEEE.round_to.
  destruct (Qeq_bool q 0); [left; eexists; reflexivity|].
  match goal with |- context [Qle_bool ?a ?b] => destruct (Qle_bool a b) end;
    [destruct (Qle_bool 0 q); tauto|left; eexists; reflexivity].
Qed.

Lemma byte_to_unit_cases (g : Z) :
  (exists v, IEEE.byte_to_unit g = Fin v) \/
  IEEE.byte_to_unit g = PInf \/ IEEE.byte_to_unit g = NInf.
Proof.
  unfold IEEE.byte_to_unit, IEEE.div32.
  destruct (IEEE.f32 (Fin (inject_Z g))) as [r| | |] eqn:E.
  - change (fdiv (Fin r) (Fin 255)) with (Fin (r / 255)).
    unfold IEEE.f32, IEEE.rnd. apply round_to_cases.
  - right. left. reflexivity.
  - right. right. reflexivity.
  - exfalso. revert E. apply rnd_not_nan. discriminate.
Qed.

Lemma mul32_zero (v : Q) : IEEE.mul32 (Fin v) (Fin 0) = Fin 0.
Proof.
  change (IEEE.round_to 24 128 (Qred (v * 0)) = Fin 0).
  rewrite (@Qred_inject_Z (v * 0) 0) by ring. reflexivity.
Qed.

Lemma ieee_field_transparent (la : list (list (Z * Z))) :
  transparent la ->
  Forall (Forall zero_or_NaN) (IEEE.brightness_field la (Fin 1) (Fin 0)).
Proof.
  intro H. unfold IEEE.brightness_field, IEEE.brightness_shift, IEEE.composite,
    IEEE.boost_contrast.
  change (fneb (Fin 0) (Fin 0)) with false. cbv iota.
  rewrite zip2d_map2d, map2d_map2d. unfold map2d.
  apply Forall_map. eapply Forall_impl; [|exact H]. intros row Hrow.
  apply Forall_map. eapply Forall_impl; [|exact Hrow]. intros [g a] Ha.
  simpl in Ha. subst a. cbn [fst snd].
  change (IEEE.byte_to_unit 0) with (Fin 0).
  destruct (byte_to_unit_cases g) as [[v ->]|[ -> | -> ]].
  - rewrite mul32_zero. left. vm_compute. reflexivity.
  - right. vm_compute. reflexivity.
  - right. vm_compute. reflexivity.
Qed.

Lemma slice_unit_length (A : Type) (l : list A) (k : Z) :
  (0 <= k)%Z -> (List.length (slice l k (k + 1)) <= 1)%nat.
Proof.
  intro H. unfold slice. rewrite !slice_index_nonneg by lia.
  rewrite length_firstn. lia.
Qed.

Lemma slice2d_unit_length (A : Type) (a : list (list A)) (r c : Z) :
  (0 <= r)%Z -> (0 <= c)%Z ->
  (List.length (concat (slice2d a r (r + 1) c (c + 1))) <= 1)%nat.
Proof.
  intros Hr Hc. unfold slice2d.
  pose proof (slice_unit_length a Hr) as H.
  destruct (slice a r (r + 1)) as [|row [|row' rest]]; simpl in *.
  - lia.
  - rewrite app_nil_r. apply slice_unit_length. exact Hc.
  - lia.
Qed.

Lemma Forall_concat (A : Type) (P : A -> Prop) (a : list (list A)) :
  Forall (Forall P) a -> Forall P (concat a).
Proof. induction 1; simpl; [constructor|]. apply Forall_app. split; assumption. Qed.

(** The mean over at most one value that is 0.0 or [nan]. *)
Lemma ieee_mean_zero (a : ndarray) :
  Forall (Forall zero_or_NaN) a -> (List.length (concat a) <= 1)%nat ->
  zero_or_NaN (IEEE.mean a).
Proof.
  intros H Hlen. apply Forall_concat in H. unfold IEEE.mean.
  destruct (concat a) as [|v [|w rest]]; simpl in Hlen; [| |lia].
  - right. vm_compute. reflexivity.
  - inversion H as [|? ? Hv _]; subst. destruct Hv as [ -> | -> ].
    + left. vm_compute. reflexivity.
    + right. vm_compute. reflexivity.
Qed.

Lemma ieee_sample_two_zero (a : ndarray) (x y : Z) :
  Forall (Forall zero_or_NaN) a -> (0 <= x)%Z -> (0 <= y)%Z ->
  let q := sample_two a x y in
  zero_or_NaN (tl q) /\ zero_or_NaN (tr q) /\ zero_or_NaN (bl q) /\ zero_or_NaN (br q).
Proof.
  intros H Hx Hy. unfold sample_two. cbn [tl tr bl br].
  replace (2 * x + 2)%Z with (2 * x + 1 + 1)%Z by lia.
  replace (2 * y + 2)%Z with (2 * y + 1 + 1)%Z by lia.
  repeat split; apply ieee_mean_zero;
    try (apply Forall_slice2d; exact H); apply slice2d_unit_length; lia.
Qed.

(** A sample of zeros, or of means of empty quadrants, matches the space. *)
Lemma ieee_best_fit_zero (q : quad float) :
  zero_or_NaN (tl q) -> zero_or_NaN (tr q) -> zero_or_NaN (bl q) -> zero_or_NaN (br q) ->
  IEEE.best_fit_quadrant q = " ".
Proof.
  destruct q as [a b c d]. simpl.
  intros [ -> | -> ] [ -> | -> ] [ -> | -> ] [ -> | -> ]; vm_compute; reflexivity.
Qed.

Lemma ieee_transparent (img : Image) (lines cols : Z) (la : list (list (Z * Z))) :
  IEEE.cols_of img lines = Ok cols ->
  (0 < lines < 2 ^ 52)%Z -> (0 < cols < 2 ^ 52)%Z ->
  resize img ((cols * 2)%Z, (lines * 2)%Z) = Ok la ->
  transparent la ->
  IEEE.image_to_blocks img lines (Fin 1) (Fin 0) =
    Ok (join [newline] (repeat (repeat " " (Z.to_nat cols)) (Z.to_nat lines))).
Proof.
  intros Hc Hl Hcols Hr Ha.
  rewrite ieee_image_to_blocks_ok with (la := la) (cols := cols); try assumption.
  f_equal. f_equal.
  rewrite <- (range_length lines). apply map_constant. intros y Hy.
  rewrite <- (range_length cols). apply map_constant. intros x Hx.
  apply In_range in Hx. apply In_range in Hy.
  destruct (@ieee_sample_two_zero (IEEE.brightness_field la (Fin 1) (Fin 0)) x y
              (ieee_field_transparent Ha)) as (H1 & H2 & H3 & H4); try lia.
  apply ieee_best_fit_zero; assumption.
Qed.

(** C5.  For every image whose resized buffer has alpha 0 at every pixel,
    whatever its gray values, rendering with contrast 1.0 and brightness 0.0
    yields a grid made of the space glyph only: [lines] rows of as many
    spaces as line 101 computes columns in [float64]. *)
Theorem ieee_transparent_renders_spaces (img : Image) (lines cols : Z)
  (la : list (list (Z * Z)))
  (Hcols : IEEE.cols_of img lines = Ok cols)
  (Hlines : (0 < lines < 2 ^ 52)%Z) (Hpos : (0 < cols < 2 ^ 52)%Z)
  (Hresize : resize img ((cols * 2)%Z, (lines * 2)%Z) = Ok la)
  (Halpha : transparent la) :
  IEEE.image_to_blocks img lines (Fin 1) (Fin 0) =
    Ok (join [newline] (repeat (repeat " " (Z.to_nat cols)) (Z.to_nat lines))).
Proof. apply ieee_transparent with (la := la); assumption. Qed.

Lemma ieee_transparent_renders_spaces_witness :
  IEEE.image_to_blocks (solid_image 1 49 200 0) 49 (Fin 1) (Fin 0) =
    Ok (join [newline] (repeat (repeat " " 1%nat) 49%nat)).
Proof.
  refine (@ieee_transparent_renders_spaces (solid_image 1 49 200 0) 49 1
            (repeat (repeat (200, 0)%Z 2) 98) _ _ _ _ _).
  - vm_compute. reflexivity.
  - vm_compute. split; reflexivity.
  - vm_compute. split; reflexivity.
  - vm_compute. reflexivity.
  - unfold transparent. repeat constructor.
Defined.

(** ** The tone adjustment in float32 *)

(** C6.  At strength 1.0 [boost_contrast] is not the identity that its
    comment promises ("strength = 1: no change"): the byte 51, normalised to
    the [float32] nearest to 0.2, comes back one unit in the last place
    lower, and 63 of the 256 normalised bytes are changed. *)
Theorem ieee_boost_contrast_not_identity :
  IEEE.byte_to_unit 51 = Fin (13421773 # 67108864) /\
  IEEE.boost_contrast [[IEEE.byte_to_unit 51]] (Fin 1) = [[Fin (3355443 # 16777216)]] /\
  (3355443 # 16777216) < (13421773 # 67108864) /\
  List.length
    (filter (fun b => negb (float_eqb (IEEE.boost_contrast_elt (Fin 1) (IEEE.byte_to_unit b))
                                      (IEEE.byte_to_unit b)))
            (range 256)) = 63%nat.
Proof. vm_compute. repeat split. Qed.
















(** ** The cell sampler in floating point *)

Lemma inject_Z_le_pow (z n : Z) : (0 <= n)%Z -> (z <= 2 ^ n)%Z -> inject_Z z <= 2 ^ n.
Proof.
  intros Hn H. rewrite two_pow_Z by exact Hn. rewrite <- Zle_Qle. exact H.
Qed.

Lemma Qfloor_nonneg (q : Q) : 0 <= q -> (0 <= Qfloor q)%Z.
Proof. intro H. change 0%Z with (Qfloor 0). apply Qfloor_resp_le. exact H. Qed.

(** The product of a factor of at most [2 ^ a] and a cell size of at most
    [2 ^ 960] is finite in [float64], and not negative. *)
Lemma mul64_bounded (a : Z) (m w : Q) :
  (0 <= a)%Z -> (a <= 60)%Z -> 0 <= m -> m <= 2 ^ a -> 0 <= w -> w <= 2 ^ 960 ->
  exists r, IEEE.mul64 (Fin m) (Fin w) = Fin r /\ 0 <= r.
Proof.
  intros Ha Ha' Hm0 Hm Hw0 Hw.
  destruct (@f64_bounded (a + 960) (m * w)) as (r & Hr & Hr0 & _); try lia.
  - apply Qmult_le_0_compat; assumption.
  - rewrite two_pow_plus. apply Qmult_le_compat_nonneg; split; assumption.
  - exists r. split; [exact Hr|exact Hr0].
Qed.

Lemma ieee_cell_bounds_floor (i : Z) (w : Q) :
  (0 <= i)%Z -> (i + 1 < 2 ^ 53)%Z -> 0 <= w -> w <= 2 ^ 960 ->
  IEEE.cell_bounds i (Fin w) =
    Ok (Qfloor (val (start_pos i (Fin w))), Qfloor (val (mid_pos i (Fin w))),
        Qfloor (val (end_pos i (Fin w)))) /\
  (0 <= Qfloor (val (start_pos i (Fin w))))%Z /\
  (0 <= Qfloor (val (mid_pos i (Fin w))))%Z /\
  (0 <= Qfloor (val (end_pos i (Fin w))))%Z.
Proof.
  intros Hi Hi1 Hw0 Hw.
  assert (2 ^ 53 = 9007199254740992)%Z as E53 by reflexivity.
  assert (0 <= inject_Z i) as Hqi by (apply inject_Z_nonneg; exact Hi).
  assert (inject_Z i <= 2 ^ 53) as Hqi' by (apply inject_Z_le_pow; lia).
  assert (0 <= inject_Z (i + 1)) as Hqj by (apply inject_Z_nonneg; lia).
  assert (inject_Z (i + 1) <= 2 ^ 53) as Hqj' by (apply inject_Z_le_pow; lia).
  (* the start *)
  destruct (@mul64_bounded 53 (inject_Z i) w) as (r1 & E1 & R1); try lia; try assumption.
  (* the middle *)
  destruct (@f64_bounded 53 (inject_Z i + 0.5)) as (m & Em & Hm0 & Hm); try lia.
  { lra. }
  { rewrite inject_Z_plus in Hqj'. change (inject_Z 1) with 1 in Hqj'. lra. }
  destruct (@mul64_bounded 54 m w) as (r2 & E2 & R2); try lia; try assumption.
  (* the end *)
  destruct (@mul64_bounded 53 (inject_Z (i + 1)) w) as (r3 & E3 & R3);
    try lia; try assumption.
  unfold start_pos, mid_pos, end_pos.
  change (IEEE.add64 (Fin (inject_Z i)) (Fin 0.5)) with (IEEE.f64 (Fin (inject_Z i + 0.5))).
  rewrite Em, E1, E2, E3. cbn [val].
  split.
  - unfold IEEE.cell_bounds.
    rewrite !of_int_exact by lia. cbn [bind].
    change (IEEE.add64 (Fin (inject_Z i)) (Fin 0.5)) with (IEEE.f64 (Fin (inject_Z i + 0.5))).
    rewrite Em, E1, E2, E3. cbn [IEEE.int bind].
    rewrite !int_floor by assumption. reflexivity.
  - repeat split; apply Qfloor_nonneg; assumption.
Qed.

Lemma ieee_sample_cell_floor (field : ndarray) (x y : Z) (w h : Q) :
  (0 <= x)%Z -> (x + 1 < 2 ^ 53)%Z -> (0 <= y)%Z -> (y + 1 < 2 ^ 53)%Z ->
  0 <= w -> w <= 2 ^ 960 -> 0 <= h -> h <= 2 ^ 960 ->
  let xs := Qfloor (val (start_pos x (Fin w))) in
  let xm := Qfloor (val (mid_pos x (Fin w))) in
  let xe := Qfloor (val (end_pos x (Fin w))) in
  let ys := Qfloor (val (start_pos y (Fin h))) in
  let ym := Qfloor (val (mid_pos y (Fin h))) in
  let ye := Qfloor (val (end_pos y (Fin h))) in
  IEEE.sample_cell field x y (Fin w) (Fin h) =
    Ok (Quad (IEEE.mean (slice2d field ys ym xs xm))
             (IEEE.mean (slice2d field ys ym xm xe))
             (IEEE.mean (slice2d field ym ye xs xm))
             (IEEE.mean (slice2d field ym ye xm xe))) /\
  (0 <= xs)%Z /\ (0 <= xm)%Z /\ (0 <= xe)%Z /\ (0 <= ys)%Z /\ (0 <= ym)%Z /\ (0 <= ye)%Z.
Proof.
  intros Hx Hx1 Hy Hy1 Hw0 Hw Hh0 Hh. cbv zeta.
  destruct (ieee_cell_bounds_floor Hx Hx1 Hw0 Hw) as (Ex & X0 & X1 & X2).
  destruct (ieee_cell_bounds_floor Hy Hy1 Hh0 Hh) as (Ey & Y0 & Y1 & Y2).
  split; [|tauto].
  unfold IEEE.sample_cell. rewrite Ex, Ey. reflexivity.
Qed.

Lemma slice2d_empty (A : Type) (a : list (list A)) (r0 r1 c0 c1 : Z) :
  (0 <= r0)%Z -> (0 <= r1)%Z -> (0 <= c0)%Z -> (0 <= c1)%Z ->
  (r1 <= r0)%Z \/ (c1 <= c0)%Z ->
  concat (slice2d a r0 r1 c0 c1) = [].
Proof.
  intros Hr0 Hr1 Hc0 Hc1 H. unfold slice2d.
  destruct H as [H|H].
  - rewrite slice_empty by assumption. reflexivity.
  - apply concat_all_nil. apply Forall_map. apply Forall_forall.
    intros row _. apply slice_empty; assumption.
Qed.

Lemma ieee_mean_empty (a : ndarray) : concat a = [] -> IEEE.mean a = NaN.
Proof. intro H. unfold IEEE.mean. rewrite H. vm_compute. reflexivity. Qed.

(** C9, as stated, fails: a boundary is the integer part of the [float64]
    product, not the floor of the exact one.  For the cell of index 2 and
    the cell size nearest to 1/3, [3 * cell_w] is rounded to 1.0: the end
    of the cell is pixel 1, where the floor of the exact product is 0, and
    the top-right quadrant holds a pixel where the rectangle of the claim
    has none. *)
Lemma ieee_cell_boundary_rounded :
  let w := IEEE.f64 (Fin (1 # 3)) in
  IEEE.cell_bounds 2 w = Ok (0%Z, 0%Z, 1%Z) /\
  Qfloor ((inject_Z 2 + 1) * val w) = 0%Z /\
  IEEE.sample_cell [[Fin 1]] 2 0 w (Fin 2) = Ok (Quad NaN (Fin 1) NaN NaN) /\
  rect_pixels [[Fin 1]] 0 1 0 0 = [[]].
Proof. vm_compute. repeat split. Qed.

(** C9, amended.  For every brightness field, every cell index from 0 and
    below [2 ^ 53 - 1] and every positive cell size up to [2 ^ 960], the
    boundaries of the cell on each axis are the floors of the products
    [index * size], [(index + 0.5) * size] and [(index + 1) * size] as
    [float64] computes them (each sum and each product rounded), and
    [sample_cell] returns the mean over the pixels of each of the four
    quadrants these boundaries delimit. *)
Theorem ieee_sample_cell_quadrant_means (field : ndarray) (x y : Z) (cell_w cell_h : Q)
  (Hx : (0 <= x)%Z) (Hx' : (x + 1 < 2 ^ 53)%Z)
  (Hy : (0 <= y)%Z) (Hy' : (y + 1 < 2 ^ 53)%Z)
  (Hw : 0 < cell_w) (Hw' : cell_w <= 2 ^ 960)
  (Hh : 0 < cell_h) (Hh' : cell_h <= 2 ^ 960) :
  let xs := Qfloor (val (start_pos x (Fin cell_w))) in
  let xm := Qfloor (val (mid_pos x (Fin cell_w))) in
  let xe := Qfloor (val (end_pos x (Fin cell_w))) in
  let ys := Qfloor (val (start_pos y (Fin cell_h))) in
  let ym := Qfloor (val (mid_pos y (Fin cell_h))) in
  let ye := Qfloor (val (end_pos y (Fin cell_h))) in
  IEEE.sample_cell field x y (Fin cell_w) (Fin cell_h) =
    Ok (Quad (IEEE.mean (rect_pixels field ys ym xs xm))
             (IEEE.mean (rect_pixels field ys ym xm xe))
             (IEEE.mean (rect_pixels field ym ye xs xm))
             (IEEE.mean (rect_pixels field ym ye xm xe))).
Proof.
  assert (0 <= cell_w) as Hw0 by lra. assert (0 <= cell_h) as Hh0 by lra.
  destruct (@ieee_sample_cell_floor field x y cell_w cell_h Hx Hx' Hy Hy' Hw0 Hw' Hh0 Hh')
    as (E & X0 & X1 & X2 & Y0 & Y1 & Y2).
  cbv zeta in *. rewrite E.
  rewrite !slice2d_rect_pixels by assumption. reflexivity.
Qed.

Lemma ieee_sample_cell_quadrant_means_witness :
  IEEE.sample_cell [[Fin 1; Fin 0; Fin 1]; [Fin 1; Fin 0; Fin 0]; [Fin 0; Fin 0; Fin 1]]
                   0 0 (Fin 3) (Fin 3) =
    Ok (Quad (Fin 1) (Fin (1 # 2)) (Fin (1 # 2)) (Fin (1 # 4))).
Proof.
  rewrite (@ieee_sample_cell_quadrant_means _ 0 0 3 3).
  - vm_compute. reflexivity.
  - vm_compute. discriminate.
  - vm_compute. reflexivity.
  - vm_compute. discriminate.
  - vm_compute. reflexivity.
  - vm_compute. reflexivity.
  - vm_compute. discriminate.
  - vm_compute. reflexivity.
  - vm_compute. discriminate.
Defined.

(** C3.  On a quadrant whose sub-rectangle has no width or no height
    [sample_cell] returns [nan], numpy's mean of an empty slice: not the 0
    of the claim, and not a value of [0, 1] as its docstring promises. *)
Theorem ieee_sample_cell_empty_quadrant (img_array : ndarray) (x y : Z) (cell_w cell_h : Q)
  (Hx : (0 <= x)%Z) (Hx' : (x + 1 < 2 ^ 53)%Z)
  (Hy : (0 <= y)%Z) (Hy' : (y + 1 < 2 ^ 53)%Z)
  (Hw : 0 <= cell_w) (Hw' : cell_w <= 2 ^ 960)
  (Hh : 0 <= cell_h) (Hh' : cell_h <= 2 ^ 960) :
  let xs := Qfloor (val (start_pos x (Fin cell_w))) in
  let xm := Qfloor (val (mid_pos x (Fin cell_w))) in
  let xe := Qfloor (val (end_pos x (Fin cell_w))) in
  let ys := Qfloor (val (start_pos y (Fin cell_h))) in
  let ym := Qfloor (val (mid_pos y (Fin cell_h))) in
  let ye := Qfloor (val (end_pos y (Fin cell_h))) in
  exists q,
    IEEE.sample_cell img_array x y (Fin cell_w) (Fin cell_h) = Ok q /\
    ((xm <= xs)%Z \/ (ym <= ys)%Z -> tl q = NaN) /\
    ((xe <= xm)%Z \/ (ym <= ys)%Z -> tr q = NaN) /\
    ((xm <= xs)%Z \/ (ye <= ym)%Z -> bl q = NaN) /\
    ((xe <= xm)%Z \/ (ye <= ym)%Z -> br q = NaN).
Proof.
  destruct (@ieee_sample_cell_floor img_array x y cell_w cell_h Hx Hx' Hy Hy' Hw Hw' Hh Hh')
    as (E & X0 & X1 & X2 & Y0 & Y1 & Y2).
  cbv zeta in *. eexists. split; [exact E|]. cbn [tl tr bl br].
  repeat split; intro H; apply ieee_mean_empty; apply slice2d_empty; tauto.
Qed.

Lemma ieee_sample_cell_empty_quadrant_witness :
  exists q,
    IEEE.sample_cell [[Fin 1; Fin 1]; [Fin 1; Fin 1]] 0 0 (Fin 1) (Fin 1) = Ok q /\
    tl q = NaN /\ ~ in_unit (tl q).
Proof.
  destruct (@ieee_sample_cell_empty_quadrant [[Fin 1; Fin 1]; [Fin 1; Fin 1]] 0 0 1 1)
    as (q & E & Htl & _).
  - vm_compute. discriminate.
  - vm_compute. reflexivity.
  - vm_compute. discriminate.
  - vm_compute. reflexivity.
  - vm_compute. discriminate.
  - vm_compute. discriminate.
  - vm_compute. discriminate.
  - vm_compute. discriminate.
  - exists q. split; [exact E|].
    assert (tl q = NaN) as H by (apply Htl; left; vm_compute; discriminate).
    split; [exact H|]. rewrite H. intros (v & Hv & _). discriminate.
Defined.
